(** * XDRS lazy gettext: a shallow embedding of
      xdrs/openstack/common/gettextutils.py

    The module represents translatable text as a [Message]: a unicode
    string that remembers its message id, its translation domain and the
    parameters it was formatted with.  The embedding follows the Python
    source function by function.  Everything the source obtains from the
    interpreter or from other packages (the process environment, the
    gettext catalogs, the built-in [%] of unicode strings, [copy.deepcopy],
    Babel's locale list) is a field of a [World] record, so the theorems
    hold whatever those collaborators do. *)

From Stdlib Require Import ZArith Lia List Bool Ascii String DecimalString.
From stdpp Require Import base option list gmap strings.

Open Scope list_scope.
Open Scope string_scope.

(** ** Python values *)

(** The values the module handles.  A dict is kept as an association list
    in iteration order, with string keys.  [PMsg] is an instance of the
    class [Message]: [text] is the value of the unicode base object, the
    other three are the instance attributes.  [PObj] is any other object;
    [unicode] is what [six.text_type] returns for it (itself a [PMsg] when
    the coercion goes through a Message, as for an exception raised with a
    Message argument). *)
#[warnings="-register-all"]
Inductive pyval : Type :=
| PNone
| PInt (n : Z)
| PStr (s : string)
| PTuple (items : list pyval)
| PDict (items : list (string * pyval))
| PMsg (text msgid domain : string) (params : pyval)
| PObj (ident : nat) (unicode : pyval).

Inductive exn : Type :=
| TypeError (msg : pyval)
| UnicodeError (msg : pyval)
| KeyError (key : string)
| ValueError (msg : string).

(** A computation that returns or raises. *)
Inductive result (A : Type) : Type :=
| Ok (a : A)
| Raise (e : exn).
Arguments Ok {A} a.
Arguments Raise {A} e.

Definition bind {A B : Type} (r : result A) (k : A -> result B) : result B :=
  match r with
  | Ok a => k a
  | Raise e => Raise e
  end.

Notation "'do' x <- r ;; k" := (bind r (fun x => k))
  (at level 10, x name, r at level 99, k at level 200).

(** [mapM f l] runs [f] on the elements from left to right and stops at
    the first one that raises. *)
Definition mapM {A B : Type} (f : A -> result B) : list A -> result (list B) :=
  fix go (l : list A) : result (list B) :=
    match l with
    | [] => Ok []
    | x :: r => do y <- f x ;; do ys <- go r ;; Ok (y :: ys)
    end.

(** ** Dicts as association lists *)

Section Dict.
Context {A : Type}.

(** [d[k]], [None] standing for the KeyError. *)
Fixpoint dict_get (d : list (string * A)) (k : string) : option A :=
  match d with
  | [] => None
  | (k', v) :: r => if String.eqb k' k then Some v else dict_get r k
  end.

(** [d[k] = v]: an existing key keeps its place, a new one goes last. *)
Fixpoint dict_set (d : list (string * A)) (k : string) (v : A)
  : list (string * A) :=
  match d with
  | [] => [(k, v)]
  | (k', v') :: r =>
      if String.eqb k' k then (k', v) :: r else (k', v') :: dict_set r k v
  end.

(** [d.update(e)] *)
Definition dict_update (d e : list (string * A)) : list (string * A) :=
  fold_left (fun acc kv => dict_set acc (fst kv) (snd kv)) e d.

Definition dict_keys (d : list (string * A)) : list string := map fst d.
End Dict.

(** The loop of [_translate_args] over the items of a dict:
    [translated_dict[k] = translate(v)] for each [(k, v)]. *)
Definition translate_items (tr : pyval -> result pyval)
  : list (string * pyval) -> list (string * pyval) ->
    result (list (string * pyval)) :=
  fix loop (items translated_dict : list (string * pyval)) :=
    match items with
    | [] => Ok translated_dict
    | (k, v) :: r =>
        do translated_v <- tr v ;;
        loop r (dict_set translated_dict k translated_v)
    end.

(** ** The world outside the module *)

Record World : Type := {
  (** [os.environ.get] *)
  environ : string -> option string;
  (** [locale.getdefaultlocale()[0]] *)
  getdefaultlocale : option string;
  (** [gettext.translation(domain, localedir, languages, fallback=True)]:
      the entry for a message id, when a catalog was found and has one.
      [languages] is [None] when the call leaves the choice to gettext. *)
  catalog : string -> option string -> option (list string) ->
            string -> option string;
  (** [gettext.find(domain, localedir, languages=[x]) is not None] *)
  gettext_find : string -> option string -> string -> bool;
  (** Babel's [localedata.list()] / [localedata.locale_identifiers()] *)
  locale_identifiers : list string;
  (** the [%] operator of the parent class, [unicode.__mod__] *)
  unicode_mod : string -> pyval -> result string;
  (** [copy.deepcopy]; [None] stands for the TypeError it raises on an
      object that cannot be copied, the one error [_copy_param] catches.
      Any other error of a [__deepcopy__] method, and an error of the text
      coercion that replaces the copy, would pass through [_copy_param];
      objects that raise these are outside the values modelled here. *)
  deepcopy : pyval -> option pyval;
  (** the text the interpreter gives for a value that is neither a plain
      string nor an object with a coercion of its own (None, numbers,
      tuples, dicts) *)
  render : pyval -> string
}.

(** ** Character classes and the two regular expressions *)

Definition is_lower (c : ascii) : bool :=
  let n := nat_of_ascii c in (97 <=? n)%nat && (n <=? 122)%nat.

Definition is_upper (c : ascii) : bool :=
  let n := nat_of_ascii c in (65 <=? n)%nat && (n <=? 90)%nat.

Definition is_digit (c : ascii) : bool :=
  let n := nat_of_ascii c in (48 <=? n)%nat && (n <=? 57)%nat.

(** The class "\w" without the UNICODE flag *)
Definition is_word (c : ascii) : bool :=
  is_lower c || is_upper c || is_digit c || Ascii.eqb c "_".

Definition is_percent (c : ascii) : bool := Ascii.eqb c "%".

(** [str.upper] on ASCII text *)
Definition upper_char (c : ascii) : ascii :=
  if is_lower c then ascii_of_nat (nat_of_ascii c - 32) else c.

Fixpoint upper (s : string) : string :=
  match s with
  | EmptyString => EmptyString
  | String c r => String (upper_char c) (upper r)
  end.

(** A greedy run of word characters: the word taken and what follows it. *)
Fixpoint take_word (s : string) : string * string :=
  match s with
  | EmptyString => (EmptyString, EmptyString)
  | String c r =>
      if is_word c
      then let (w, r') := take_word r in (String c w, r')
      else (EmptyString, s)
  end.

(** The tail of the first pattern (a percent sign, an opening parenthesis,
    a captured run of word characters, a closing parenthesis and a
    lower-case letter) at the head of [s]: the captured key and the number
    of characters matched.  Nothing is gained by giving back characters of
    the word, since the next character has to be the closing parenthesis. *)
Definition match_named (s : string) : option (string * nat) :=
  match s with
  | String c0 (String c1 r) =>
      if is_percent c0 && Ascii.eqb c1 "(" then
        let (w, r') := take_word r in
        match r' with
        | String c2 (String c3 _) =>
            if Ascii.eqb c2 ")" && is_lower c3
            then Some (w, 4 + String.length w)%nat
            else None
        | _ => None
        end
      else None
  | _ => None
  end.

(** One attempt of the first pattern of [_trim_dictionary_parameters]
    (the optional group "(?:[^%]|^)?" and then the tail above) at the head
    of [s]: first
    with a leading character other than [%], then without the optional
    group (the [^] alternative consumes nothing, so it matches the same
    text as leaving the group out). *)
Definition match_key_at (s : string) : option (string * nat) :=
  let with_char :=
    match s with
    | String c r =>
        if is_percent c then None
        else match match_named r with
             | Some (key, n) => Some (key, S n)
             | None => None
             end
    | EmptyString => None
    end in
  match with_char with
  | Some m => Some m
  | None => match_named s
  end.

(** [re.findall] scans from left to right and resumes after each match;
    [skip] counts the characters of the current match still to be passed. *)
Fixpoint findall_keys_from (skip : nat) (s : string) : list string :=
  match s with
  | EmptyString => []
  | String _ r =>
      match skip with
      | S k => findall_keys_from k r
      | O =>
          match match_key_at s with
          | Some (key, n) => key :: findall_keys_from (n - 1) r
          | None => findall_keys_from 0 r
          end
      end
  end.

(** [re.findall] of the first pattern over [msgid]: the keys of the
    named conversions, in order of appearance *)
Definition findall_keys (msgid : string) : list string :=
  findall_keys_from 0 msgid.

(** The pattern "%[a-z]" at the head of [s] *)
Definition starts_conversion (s : string) : bool :=
  match s with
  | String c0 (String c1 _) => is_percent c0 && is_lower c1
  | _ => false
  end.

(** Whether "(?:[^%]|^)%[a-z]" matches somewhere in the text, which is
    when [re.findall] returns a non-empty list. *)
Fixpoint has_conversion_from (at_start : bool) (s : string) : bool :=
  match s with
  | EmptyString => false
  | String c r =>
      (negb (is_percent c) && starts_conversion r)
      || (at_start && starts_conversion s)
      || has_conversion_from false r
  end.

Definition has_conversion (msgid : string) : bool :=
  has_conversion_from true msgid.

(** ** The class Message *)

Record Message : Type := mkMessage {
  text : string;      (** the unicode value of the object *)
  msgid : string;
  domain : string;
  params : pyval      (** [PNone] when nothing was captured *)
}.

Definition to_val (m : Message) : pyval :=
  PMsg (text m) (msgid m) (domain m) (params m).

(** Python's truth test on a string that may be [None] *)
Definition truthy (o : option string) : option string :=
  match o with
  | Some s => if String.eqb s "" then None else Some s
  | None => None
  end.

(** [translator(msgid)] of a catalog opened with [fallback=True]: the
    entry, or the message id itself. *)
Definition ugettext (lang : string -> option string) (msgid : string) : string :=
  match lang msgid with
  | Some t => t
  | None => msgid
  end.

Section Module_.
Variable W : World.

(** [Message._translate_msgid(msgid, domain, desired_locale=None)] *)
Definition Message_translate_msgid
    (msgid domain : string) (desired_locale : option string) : string :=
  let desired_locale :=
    match truthy desired_locale with
    | Some l => l
    | None =>
        match truthy (getdefaultlocale W) with
        | Some l => l
        | None => "en_US"
        end
    end in
  let locale_dir := environ W (upper domain ++ "_LOCALEDIR") in
  let lang := catalog W domain locale_dir (Some [desired_locale]) in
  ugettext lang msgid.

(** [Message.__new__(cls, msgid, msgtext=None, params=None, domain='xdrs')] *)
Definition Message_new
    (msgid : string) (msgtext : option string) (params : pyval)
    (domain : string) : Message :=
  let msgtext :=
    match truthy msgtext with
    | Some t => t
    | None => Message_translate_msgid msgid domain None
    end in
  mkMessage msgtext msgid domain params.

(** [six.text_type(obj)] *)
Definition text_type (obj : pyval) : pyval :=
  match obj with
  | PStr s => PStr s
  | PObj _ u => u
  | _ => PStr (render W obj)
  end.

(** [Message._copy_param] *)
Definition Message_copy_param (param : pyval) : pyval :=
  match deepcopy W param with
  | Some c => c
  | None => text_type param
  end.

(** The loop [for key in keys: params[key] = self._copy_param(src[key])] *)
Fixpoint trim_loop (src : list (string * pyval)) (keys : list string)
    (params : list (string * pyval)) : result (list (string * pyval)) :=
  match keys with
  | [] => Ok params
  | key :: rest =>
      match dict_get src key with
      | None => Raise (KeyError key)
      | Some v => trim_loop src rest (dict_set params key (Message_copy_param v))
      end
  end.

(** The dict [src] of [_trim_dictionary_parameters]: the parameters the
    message already has, when they are a dict, then the new ones. *)
Definition trim_src (self : Message) (dict_param : list (string * pyval))
  : list (string * pyval) :=
  let src := [] in
  let src :=
    match params self with
    | PDict d => dict_update src d
    | _ => src
    end in
  dict_update src dict_param.

(** [Message._trim_dictionary_parameters] *)
Definition Message_trim_dictionary_parameters
    (self : Message) (dict_param : list (string * pyval)) : result pyval :=
  let keys := findall_keys (msgid self) in
  match keys with
  | [] =>
      if has_conversion (msgid self)
      then Ok (Message_copy_param (PDict dict_param))
      else do p <- trim_loop (trim_src self dict_param) keys [] ;; Ok (PDict p)
  | _ :: _ =>
      do p <- trim_loop (trim_src self dict_param) keys [] ;; Ok (PDict p)
  end.

(** [Message._sanitize_mod_params] *)
Definition Message_sanitize_mod_params (self : Message) (other : pyval)
  : result pyval :=
  match other with
  | PNone => Ok (PTuple [other])
  | PDict d => Message_trim_dictionary_parameters self d
  | _ => Ok (Message_copy_param other)
  end.

(** [Message.__mod__] *)
Definition Message_mod (self : Message) (other : pyval) : result Message :=
  do params <- Message_sanitize_mod_params self other ;;
  do unicode_mod_ <- unicode_mod W (text self) params ;;
  Ok (Message_new (msgid self) (Some unicode_mod_) params (domain self)).

(** [_translate_args], the recursive calls of [translate] left open *)
Definition translate_args_with (tr : pyval -> result pyval) (args : pyval)
  : result pyval :=
  match args with
  | PTuple items => do vs <- mapM tr items ;; Ok (PTuple vs)
  | PDict items =>
      do translated_dict <- translate_items tr items [] ;;
      Ok (PDict translated_dict)
  | _ => tr args
  end.

(** [Message.translate], the recursive calls of [translate] left open *)
Definition Message_translate_with (tr : pyval -> result pyval)
    (msgid domain : string) (params : pyval)
    (desired_locale : option string) : result string :=
  let translated_message :=
    Message_translate_msgid msgid domain desired_locale in
  match params with
  | PNone => Ok translated_message
  | _ =>
      do translated_params <- translate_args_with tr params ;;
      unicode_mod W translated_message translated_params
  end.

(** [translate(obj, desired_locale=None)] *)
Fixpoint translate (obj : pyval) (desired_locale : option string)
    {struct obj} : result pyval :=
  match obj with
  | PMsg _ i d p =>
      do s <- Message_translate_with
                (fun v => translate v desired_locale) i d p desired_locale ;;
      Ok (PStr s)
  | PObj _ (PMsg _ i d p) =>
      do s <- Message_translate_with
                (fun v => translate v desired_locale) i d p desired_locale ;;
      Ok (PStr s)
  | _ => Ok obj
  end.

(** [_translate_args(args, desired_locale=None)] *)
Definition translate_args (args : pyval) (desired_locale : option string)
  : result pyval :=
  translate_args_with (fun v => translate v desired_locale) args.

(** [Message.translate(self, desired_locale=None)] *)
Definition Message_translate (self : Message)
    (desired_locale : option string) : result string :=
  Message_translate_with (fun v => translate v desired_locale)
    (msgid self) (domain self) (params self) desired_locale.
End Module_.

(** ** Module state: the lazy flag and the language cache *)

(** Python lists are objects: [heap] holds the contents of every list
    allocated so far, a list being named by its index.  The dict
    [_AVAILABLE_LANGUAGES] maps a domain to the list object cached for it. *)
Record State : Type := mkState {
  USE_LAZY : bool;
  _AVAILABLE_LANGUAGES : gmap string nat;
  heap : list (list string)
}.

Definition initial_state : State := mkState false ∅ [].

(** [enable_lazy()] *)
Definition enable_lazy (st : State) : State :=
  mkState true (_AVAILABLE_LANGUAGES st) (heap st).

(** A new list object with the given contents. *)
Definition new_list (xs : list string) (st : State) : nat * State :=
  (length (heap st),
   mkState (USE_LAZY st) (_AVAILABLE_LANGUAGES st) (heap st ++ [xs])%list).

(** The contents of a list object. *)
Definition contents (st : State) (l : nat) : list string :=
  default [] (heap st !! l).

(** [copy.copy(l)] of a list: a new object with the same contents. *)
Definition copy_copy (l : nat) (st : State) : nat * State :=
  new_list (contents st l) st.

(** Any mutation of the list object [l] by a caller: its contents become
    [xs] (append, remove, sort, clear, ...). *)
Definition mutate (l : nat) (xs : list string) (st : State) : State :=
  mkState (USE_LAZY st) (_AVAILABLE_LANGUAGES st) (<[l := xs]> (heap st)).

Definition contains (l : list string) (x : string) : bool :=
  existsb (String.eqb x) l.

Definition aliases : list (string * string) :=
  [("zh", "zh_CN"); ("zh_Hant_HK", "zh_HK"); ("zh_Hant", "zh_TW");
   ("fil", "tl_PH")].

Section Functions.
Variable W : World.

(** [_(msg)] *)
Definition gettext_ (st : State) (msg : string) : pyval :=
  if USE_LAZY st
  then to_val (Message_new W msg None PNone "xdrs")
  else
    let _localedir := environ W (upper "xdrs" ++ "_LOCALEDIR") in
    let _t := catalog W "xdrs" _localedir None in
    PStr (ugettext _t msg).

(** [Message.__add__] *)
Definition Message_add (st : State) (self : Message) (other : pyval)
  : result pyval :=
  let msg := gettext_ st "Message objects do not support addition." in
  Raise (TypeError msg).

(** [Message.__radd__] *)
Definition Message_radd (st : State) (self : Message) (other : pyval)
  : result pyval :=
  Message_add st self other.

(** [Message.__str__] *)
Definition Message_str (st : State) (self : Message) : result pyval :=
  let msg := gettext_ st
    ("Message objects do not support str() because they may "
     ++ "contain non-ascii characters. "
     ++ "Please use unicode() or translate() instead.") in
  Raise (UnicodeError msg).

(** The contents of [language_list] when it is stored in the cache. *)
Definition language_list_of (domain : string) : list string :=
  let localedir := upper domain ++ "_LOCALEDIR" in
  let find := fun x => gettext_find W domain (environ W localedir) x in
  let language_list := ["en_US"] in
  let language_list :=
    fold_left (fun (ll : list string) i => if find i then (ll ++ [i])%list else ll)
              (locale_identifiers W) language_list in
  fold_left
    (fun (ll : list string) la =>
       if contains ll (fst la) && negb (contains ll (snd la))
       then (ll ++ [snd la])%list else ll)
    aliases language_list.

(** [get_available_languages(domain)]: the list object returned and the
    state left behind. *)
Definition get_available_languages (domain : string) (st : State)
  : nat * State :=
  match _AVAILABLE_LANGUAGES st !! domain with
  | Some l => copy_copy l st
  | None =>
      let (language_list, st) := new_list (language_list_of domain) st in
      let st := mkState (USE_LAZY st)
                  (<[domain := language_list]> (_AVAILABLE_LANGUAGES st))
                  (heap st) in
      copy_copy language_list st
  end.
End Functions.

(** ** A reference interpreter for examples

    The theorems below quantify over the [World].  To run the functions on
    concrete inputs we also give one world: no catalogs, a copy that
    returns an equal value, and a formatter for the conversions [%s],
    [%d], [%%] and their named forms over None, integers and text. *)

Definition Z_to_string (n : Z) : string := NilZero.string_of_int (Z.to_int n).

(** The text [%s] puts for an argument, for the arguments covered. *)
Definition py_text (v : pyval) : option string :=
  match v with
  | PNone => Some "None"
  | PInt n => Some (Z_to_string n)
  | PStr s => Some s
  | PMsg t _ _ _ => Some t
  | _ => None
  end.

Inductive fstate : Type :=
| Lit                                (** copying literal text *)
| Pct                                (** after a percent sign *)
| Key (acc : string) (depth : nat).  (** inside a parenthesised key *)

Definition snoc (s : string) (c : ascii) : string := s ++ String c EmptyString.

(** One conversion character [c] applied to the arguments left. *)
Definition convert (c : ascii) (args : list pyval) (out : string)
  : result (list pyval * string) :=
  if is_percent c then Ok (args, snoc out c)
  else if Ascii.eqb c "s" then
    match args with
    | [] => Raise (TypeError (PStr "not enough arguments for format string"))
    | a :: rest =>
        match py_text a with
        | Some t => Ok (rest, out ++ t)
        | None => Raise (ValueError "argument outside the reference formatter")
        end
    end
  else if Ascii.eqb c "d" then
    match args with
    | [] => Raise (TypeError (PStr "not enough arguments for format string"))
    | PInt n :: rest => Ok (rest, out ++ Z_to_string n)
    | _ :: _ => Raise (TypeError (PStr "%d format: a number is required"))
    end
  else Raise (ValueError "unsupported format character").

Fixpoint py_format_from (fs : fstate) (args : list pyval)
    (dict : option (list (string * pyval))) (out : string) (s : string)
    : result string :=
  match s with
  | EmptyString =>
      match fs with
      | Lit =>
          match dict, args with
          | None, _ :: _ =>
              Raise (TypeError
                (PStr "not all arguments converted during string formatting"))
          | _, _ => Ok out
          end
      | _ => Raise (ValueError "incomplete format")
      end
  | String c r =>
      match fs with
      | Lit =>
          if is_percent c then py_format_from Pct args dict out r
          else py_format_from Lit args dict (snoc out c) r
      | Pct =>
          if Ascii.eqb c "(" then
            match dict with
            | None => Raise (TypeError (PStr "format requires a mapping"))
            | Some _ => py_format_from (Key "" 0) args dict out r
            end
          else
            match convert c args out with
            | Ok (args', out') => py_format_from Lit args' dict out' r
            | Raise e => Raise e
            end
      | Key acc depth =>
          if Ascii.eqb c ")" then
            match depth with
            | S d => py_format_from (Key (snoc acc c) d) args dict out r
            | O =>
                match dict_get (default [] dict) acc with
                | None => Raise (KeyError acc)
                | Some v => py_format_from Pct [v] dict out r
                end
            end
          else if Ascii.eqb c "(" then
            py_format_from (Key (snoc acc c) (S depth)) args dict out r
          else py_format_from (Key (snoc acc c) depth) args dict out r
      end
  end.

(** [fmt % args] for a unicode [fmt]: a tuple gives the positional
    arguments, anything else is the single argument, and a dict also
    serves the named conversions. *)
Definition py_format (fmt : string) (args : pyval) : result string :=
  match args with
  | PTuple items => py_format_from Lit items None "" fmt
  | PDict d => py_format_from Lit [args] (Some d) "" fmt
  | _ => py_format_from Lit [args] None "" fmt
  end.

Definition reference_world : World := {|
  environ := fun _ => None;
  getdefaultlocale := None;
  catalog := fun _ _ _ _ => None;
  gettext_find := fun _ _ _ => false;
  locale_identifiers := [];
  unicode_mod := py_format;
  deepcopy := fun v => Some v;
  render := fun v => default "" (py_text v)
|}.

(** ** Vocabulary of the statements *)

Definition is_Message (v : pyval) : bool :=
  match v with
  | PMsg _ _ _ _ => true
  | _ => false
  end.

Definition is_tuple (v : pyval) : bool :=
  match v with
  | PTuple _ => true
  | _ => false
  end.

Definition is_dict (v : pyval) : bool :=
  match v with
  | PDict _ => true
  | _ => false
  end.

(** The parameters a message already has, as [src] starts with them. *)
Definition defaults (m : Message) : list (string * pyval) :=
  match params m with
  | PDict d => dict_update [] d
  | _ => []
  end.

(** Every cached list object exists. *)
Definition wf (st : State) : Prop :=
  forall d l, _AVAILABLE_LANGUAGES st !! d = Some l -> l < length (heap st).



(** A world in which Babel lists four locales and the domain has catalogs
    for two of them. *)
Definition catalog_world : World := {|
  environ := fun _ => None;
  getdefaultlocale := Some "fr_FR";
  catalog := fun _ _ _ _ => None;
  gettext_find := fun _ _ x => String.eqb x "fr" || String.eqb x "zh";
  locale_identifiers := ["de"; "fr"; "it"; "zh"];
  unicode_mod := py_format;
  deepcopy := fun v => Some v;
  render := fun v => default "" (py_text v)
|}.

(** The locale [_translate_msgid] uses when it is given none: the
    system's, or en_US when the system has none. *)
Definition default_locale (W : World) : string :=
  match truthy (getdefaultlocale W) with
  | Some l => l
  | None => "en_US"
  end.

(** The locale [_translate_msgid] ends up asking gettext for. *)
Definition effective_locale (W : World) (desired_locale : option string)
  : string :=
  match truthy desired_locale with
  | Some l => l
  | None => default_locale W
  end.

(** Text without any percent sign. *)
Fixpoint no_percent (s : string) : bool :=
  match s with
  | EmptyString => true
  | String c r => negb (is_percent c) && no_percent r
  end.

(** Text made of word characters only. *)
Fixpoint all_word (s : string) : bool :=
  match s with
  | EmptyString => true
  | String c r => is_word c && all_word r
  end.

(** A value [translate] does something to: a Message, or an object whose
    text coercion is one. *)
Definition translatable (W : World) (v : pyval) : bool :=
  is_Message v || is_Message (text_type W v).

(** One turn of the loop over the alias table. *)
Definition alias_step (ll : list string) (la : string * string) : list string :=
  if contains ll (fst la) && negb (contains ll (snd la))
  then (ll ++ [snd la])%list else ll.

(** The base locale followed by the locales Babel lists and the domain has
    a catalog for, in Babel's order: [language_list] before the aliases. *)
Definition found_languages (W : World) (domain : string) : list string :=
  "en_US" ::
  List.filter
    (fun x => gettext_find W domain (environ W (upper domain ++ "_LOCALEDIR")) x)
    (locale_identifiers W).

(** A world in which Babel lists en_US itself and the domain has an
    en_US catalog. *)
Definition base_catalog_world : World := {|
  environ := fun _ => None;
  getdefaultlocale := None;
  catalog := fun _ _ _ _ => None;
  gettext_find := fun _ _ x => String.eqb x "en_US" || String.eqb x "fr";
  locale_identifiers := ["de"; "en_US"; "fr"];
  unicode_mod := py_format;
  deepcopy := fun v => Some v;
  render := fun v => default "" (py_text v)
|}.

(** *** The conversions of a format string, as the [%] operator reads it

    The specification speaks of the keys referenced in a message id and of
    its positional conversions.  These are read here off the grammar of a
    conversion specifier, not off the scans of the module: a percent sign,
    an optional key in parentheses (which may nest), any flags, width,
    precision and length modifier, and a conversion type; two percent
    signs are an escape and no conversion. *)

(** A flag, a digit or star of a width or precision, the dot, or a length
    modifier. *)
Definition is_spec_modifier (c : ascii) : bool :=
  is_digit c || Ascii.eqb c "#" || Ascii.eqb c "-" || Ascii.eqb c " "
  || Ascii.eqb c "+" || Ascii.eqb c "." || Ascii.eqb c "*"
  || Ascii.eqb c "h" || Ascii.eqb c "l" || Ascii.eqb c "L".

Inductive scan_state : Type :=
| InText
| AfterPercent
| InKey (acc : string) (depth : nat)
| InSpec (key : option string).

(** The conversion that the type character [c] ends: the named one, or a
    positional one unless the character is the percent sign of an
    escape. *)
Definition end_conversion (key : option string) (c : ascii)
  : list (option string) :=
  match key with
  | Some k => [Some k]
  | None => if is_percent c then [] else [None]
  end.

(** The conversions of the text from left to right: [Some key] for a named
    one, [None] for a positional one. *)
Fixpoint conversions_from (st : scan_state) (s : string)
  : list (option string) :=
  match s with
  | EmptyString => []
  | String c r =>
      match st with
      | InText =>
          if is_percent c then conversions_from AfterPercent r
          else conversions_from InText r
      | AfterPercent =>
          if Ascii.eqb c "(" then conversions_from (InKey "" 0) r
          else if is_spec_modifier c then conversions_from (InSpec None) r
          else (end_conversion None c ++ conversions_from InText r)%list
      | InKey acc depth =>
          if Ascii.eqb c ")" then
            match depth with
            | O => conversions_from (InSpec (Some acc)) r
            | S d => conversions_from (InKey (snoc acc c) d) r
            end
          else if Ascii.eqb c "(" then
            conversions_from (InKey (snoc acc c) (S depth)) r
          else conversions_from (InKey (snoc acc c) depth) r
      | InSpec key =>
          if is_spec_modifier c then conversions_from (InSpec key) r
          else (end_conversion key c ++ conversions_from InText r)%list
      end
  end.

Definition conversions (msgid : string) : list (option string) :=
  conversions_from InText msgid.

(** The keys referenced in a message id: those of its named conversions. *)
Definition referenced_keys (msgid : string) : list string :=
  flat_map (fun o => match o with Some k => [k] | None => [] end)
           (conversions msgid).

(** Whether the message id has a positional conversion. *)
Definition has_positional (msgid : string) : bool :=
  existsb (fun o => match o with Some _ => false | None => true end)
          (conversions msgid).

(** *** Format strings of the plain form

    A format string put together from text without percent signs, named
    conversions [%(key)c] and positional conversions [%c], where the key
    is made of word characters and the conversion letter follows at once:
    no flag, width, precision or length modifier, and no escape. *)










(** *** Two statements in the words of the specification *)

Section Stated.
Variable W : World.

(** A [%] whose text is formatted from the translation of the message id,
    as the specification describes the operator. *)
Definition Message_mod_from_msgid (self : Message) (other : pyval)
  : result Message :=
  do params <- Message_sanitize_mod_params W self other ;;
  do unicode_mod_ <-
    unicode_mod W (Message_translate_msgid W (msgid self) (domain self) None)
                params ;;
  Ok (Message_new W (msgid self) (Some unicode_mod_) params (domain self)).

(** Repeated substitution restarts from the message id. *)
Definition restarts_from_msgid (m : Message) (p1 p2 : pyval) : Prop :=
  forall m1, Message_mod W m p1 = Ok m1 ->
             Message_mod W m1 p2 = Message_mod_from_msgid m1 p2.

(** [(m % p1) % p2] and [m % merged], where [merged] is [p1] updated
    with [p2]. *)
Definition chained_mod (m : Message) (p1 p2 : list (string * pyval))
  : result Message :=
  do m1 <- Message_mod W m (PDict p1) ;; Message_mod W m1 (PDict p2).

Definition merged_mod (m : Message) (p1 p2 : list (string * pyval))
  : result Message :=
  Message_mod W m (PDict (dict_update p1 p2)).


End Stated.

(** * Properties *)

(** ** Running the embedding *)

Example findall_keys_hello :
  findall_keys "Hello %(name)s, you have %(count)d items" = ["name"; "count"].
Proof. reflexivity. Qed.

Example findall_keys_adjacent :
  findall_keys "%(a)s%(b)s %%(c)d %(d)" = ["a"; "b"; "c"].
Proof. reflexivity. Qed.

Example has_conversion_examples :
  has_conversion "msg %s" = true /\ has_conversion "%s" = true /\
  has_conversion "100%%" = false /\ has_conversion "a %(k)s" = false.
Proof. repeat split; reflexivity. Qed.

Example py_format_examples :
  py_format "msg %s" (PTuple [PNone]) = Ok "msg None" /\
  py_format "%(a)s and %(b)d" (PDict [("b", PInt 3); ("a", PStr "x")])
    = Ok "x and 3" /\
  py_format "100%% of %s" (PStr "it") = Ok "100% of it" /\
  py_format "%s" (PTuple []) =
    Raise (TypeError (PStr "not enough arguments for format string")) /\
  py_format "x" (PStr "y") =
    Raise (TypeError
      (PStr "not all arguments converted during string formatting")) /\
  py_format "x" (PDict [("k", PNone)]) = Ok "x" /\
  py_format "%(k)s" (PDict []) = Raise (KeyError "k").
Proof. repeat split; reflexivity. Qed.

(** ** Association-list facts *)

Section DictFacts.
Context {A : Type}.
Implicit Types (d e : list (string * A)) (k : string) (v : A).

Lemma dict_get_set d k v k' :
  dict_get (dict_set d k v) k' =
  if String.eqb k k' then Some v else dict_get d k'.
Proof.
  induction d as [|[k0 v0] d IH]; simpl.
  - reflexivity.
  - destruct (String.eqb_spec k0 k) as [->|Hne]; simpl.
    + destruct (String.eqb k k'); reflexivity.
    + rewrite IH.
      destruct (String.eqb_spec k0 k') as [->|Hne'].
      * destruct (String.eqb_spec k k'); congruence.
      * reflexivity.
Qed.

Lemma dict_get_None d k : dict_get d k = None <-> k ∉ dict_keys d.
Proof.
  induction d as [|[k0 v0] d IH]; simpl.
  - split; [intros _; apply not_elem_of_nil | reflexivity].
  - rewrite not_elem_of_cons.
    destruct (String.eqb_spec k0 k) as [->|Hne].
    + split; [discriminate | intros [H _]; congruence].
    + rewrite IH. split; [intros H; split; auto | tauto].
Qed.

Lemma dict_get_Some_elem d k v : dict_get d k = Some v -> k ∈ dict_keys d.
Proof.
  intros H. destruct (decide (k ∈ dict_keys d)) as [|Hn]; auto.
  apply dict_get_None in Hn. congruence.
Qed.




(** [d.update(e)] then [d[k]]: the binding of [e] when it has one, the
    old binding otherwise. *)
Lemma dict_get_update e d k :
  NoDup (dict_keys e) ->
  dict_get (dict_update d e) k =
  match dict_get e k with
  | Some v => Some v
  | None => dict_get d k
  end.
Proof.
  revert d. induction e as [|[k0 v0] e IH]; simpl; intros d H; auto.
  apply NoDup_cons in H as [Hn Hd].
  unfold dict_update in *. simpl. rewrite IH by assumption.
  rewrite dict_get_set.
  destruct (String.eqb_spec k0 k) as [->|Hne].
  - apply dict_get_None in Hn. rewrite Hn. reflexivity.
  - reflexivity.
Qed.

(** A key is missing after an update exactly when both dicts miss it. *)
Lemma dict_get_update_None e d k :
  dict_get (dict_update d e) k = None <->
  dict_get d k = None /\ dict_get e k = None.
Proof.
  revert d. induction e as [|[k0 v0] e IH]; simpl; intros d.
  - tauto.
  - unfold dict_update in *. simpl. rewrite IH, dict_get_set.
    destruct (String.eqb_spec k0 k) as [->|Hne].
    + split; [intros [? ?]; discriminate | intros [? ?]; discriminate].
    + tauto.
Qed.
End DictFacts.

(** ** Construction and fallback *)

Lemma ugettext_missing lang msgid : lang msgid = None -> ugettext lang msgid = msgid.
Proof. unfold ugettext. intros ->. reflexivity. Qed.

(** Without a catalog entry [_translate_msgid] gives the message id back,
    whichever locale is asked for. *)
Lemma Message_translate_msgid_missing W msgid dom loc :
  (forall dir langs, catalog W dom dir langs msgid = None) ->
  Message_translate_msgid W msgid dom loc = msgid.
Proof.
  intros H. unfold Message_translate_msgid. apply ugettext_missing, H.
Qed.

(** C5: for a message id that no catalog of the domain has an entry for,
    in any locale directory and for any language, the Message built from
    it without parameters has the message id as its text, and translating
    it, through the method or through the dispatcher, returns exactly the
    message id as a plain string for every desired locale; the call
    returns, it does not raise. *)
Theorem translate_missing_msgid_is_msgid
    (W : World) (msgid dom : string) (desired_locale : option string) :
  (forall dir langs, catalog W dom dir langs msgid = None) ->
  let m := Message_new W msgid None PNone dom in
  text m = msgid /\
  Message_translate W m desired_locale = Ok msgid /\
  translate W (to_val m) desired_locale = Ok (PStr msgid).
Proof.
  intros H m. subst m.
  unfold Message_translate, Message_translate_with, to_val; simpl.
  unfold Message_translate_with.
  rewrite !Message_translate_msgid_missing by assumption.
  repeat split; reflexivity.
Qed.

Lemma translate_missing_msgid_is_msgid_witness :
  let m := Message_new reference_world "No such file" None PNone "xdrs" in
  text m = "No such file" /\
  Message_translate reference_world m (Some "fr_FR") = Ok "No such file" /\
  translate reference_world (to_val m) (Some "fr_FR") = Ok (PStr "No such file").
Proof.
  apply (translate_missing_msgid_is_msgid reference_world "No such file" "xdrs"
           (Some "fr_FR")).
  intros dir langs. reflexivity.
Defined.

(** C10: an explicit empty [msgtext] is falsy like the omitted one, so the
    constructor replaces both by the default-locale translation of the
    message id and the two Messages are equal, text included. *)
Theorem Message_new_empty_msgtext
    (W : World) (msgid : string) (params : pyval) (dom : string) :
  Message_new W msgid (Some "") params dom = Message_new W msgid None params dom /\
  text (Message_new W msgid (Some "") params dom)
    = Message_translate_msgid W msgid dom None.
Proof. split; reflexivity. Qed.

(** ** Unsupported operations *)

(** C6: [__add__] and [__radd__] raise TypeError for every other operand,
    so [m + x] and [x + m] produce no concatenation, and [__str__] raises
    UnicodeError; none of the three returns a value.  The text of the
    error goes through [_], in lazy mode or not. *)
Theorem Message_add_radd_str_raise
    (W : World) (st : State) (m : Message) (other : pyval) :
  (exists e, Message_add W st m other = Raise (TypeError e)) /\
  (exists e, Message_radd W st m other = Raise (TypeError e)) /\
  (exists e, Message_str W st m = Raise (UnicodeError e)) /\
  (forall v, Message_add W st m other <> Ok v) /\
  (forall v, Message_radd W st m other <> Ok v) /\
  (forall v, Message_str W st m <> Ok v).
Proof.
  unfold Message_radd, Message_add, Message_str.
  repeat split; eauto; discriminate.
Qed.

(** ** Sanitising the right operand of [%] *)

(** C9: [m % None] passes the one-element tuple [(None,)] to the [%] of
    the parent class and keeps it as the captured parameters, so the
    result is what formatting with None as single positional argument
    gives.  With the reference formatter and no catalog,
    [Message("msg %s") % None] returns the Message of text "msg None". *)
Theorem Message_mod_None (W : World) (m : Message) :
  Message_sanitize_mod_params W m PNone = Ok (PTuple [PNone]) /\
  Message_mod W m PNone =
    (do s <- unicode_mod W (text m) (PTuple [PNone]) ;;
     Ok (Message_new W (msgid m) (Some s) (PTuple [PNone]) (domain m))) /\
  Message_mod reference_world
      (Message_new reference_world "msg %s" None PNone "xdrs") PNone
    = Ok (mkMessage "msg None" "msg %s" "xdrs" (PTuple [PNone])).
Proof. repeat split; reflexivity. Qed.

Section Trim.
Variable W : World.
Implicit Types (src acc : list (string * pyval)) (keys : list string).

(** The loop raises at the first key that [src] does not have. *)
Lemma trim_loop_missing src keys acc k :
  k ∈ keys -> dict_get src k = None ->
  exists k', k' ∈ keys /\ dict_get src k' = None /\
             trim_loop W src keys acc = Raise (KeyError k').
Proof.
  revert acc. induction keys as [|k0 keys IH]; intros acc Hin Hk.
  - apply elem_of_nil in Hin as [].
  - simpl. destruct (dict_get src k0) as [v|] eqn:E.
    + apply elem_of_cons in Hin as [->|Hin]; [congruence|].
      destruct (IH (dict_set acc k0 (Message_copy_param W v)) Hin Hk)
        as (k' & ? & ? & ?).
      exists k'. rewrite elem_of_cons. auto.
    + exists k0. rewrite elem_of_cons. auto.
Qed.




(** With named conversions in the message id the method is the loop. *)
Lemma trim_named (self : Message) d :
  findall_keys (msgid self) <> [] ->
  Message_trim_dictionary_parameters W self d =
  (do p <- trim_loop W (trim_src self d) (findall_keys (msgid self)) [] ;;
   Ok (PDict p)).
Proof.
  unfold Message_trim_dictionary_parameters.
  destruct (findall_keys (msgid self)); [congruence | reflexivity].
Qed.

(** A key that neither the captured parameters nor the new mapping has
    is missing from [src]. *)
Lemma trim_src_missing (self : Message) d k :
  dict_get d k = None ->
  (forall d0, params self = PDict d0 -> dict_get d0 k = None) ->
  dict_get (trim_src self d) k = None.
Proof.
  intros Hd Hp. unfold trim_src. apply dict_get_update_None. split; [|exact Hd].
  destruct (params self); try reflexivity.
  apply dict_get_update_None. split; [reflexivity | apply Hp; reflexivity].
Qed.

End Trim.

(** C4: when the message id refers to a named key that neither the
    parameters already captured by the message nor the new mapping
    supply, [_trim_dictionary_parameters] raises KeyError for a referenced
    key missing from the merged dict, and [_sanitize_mod_params] and [%]
    pass that KeyError on to the caller. *)
Theorem Message_mod_missing_key_raises
    (W : World) (m : Message) (d : list (string * pyval)) (k : string) :
  k ∈ findall_keys (msgid m) ->
  dict_get d k = None ->
  (forall d0, params m = PDict d0 -> dict_get d0 k = None) ->
  exists k',
    k' ∈ findall_keys (msgid m) /\
    dict_get (trim_src m d) k' = None /\
    Message_trim_dictionary_parameters W m d = Raise (KeyError k') /\
    Message_sanitize_mod_params W m (PDict d) = Raise (KeyError k') /\
    Message_mod W m (PDict d) = Raise (KeyError k').
Proof.
  intros Hk Hd Hp.
  assert (Hne : findall_keys (msgid m) <> []).
  { intros E. rewrite E in Hk. apply elem_of_nil in Hk as []. }
  destruct (trim_loop_missing W (trim_src m d) (findall_keys (msgid m)) [] k Hk)
    as (k' & Hin & Hmiss & Hloop).
  { apply trim_src_missing; assumption. }
  assert (Ht : Message_trim_dictionary_parameters W m d = Raise (KeyError k')).
  { rewrite trim_named by assumption. rewrite Hloop. reflexivity. }
  exists k'. repeat split; auto.
  unfold Message_mod. simpl. rewrite Ht. reflexivity.
Qed.

Lemma Message_mod_missing_key_raises_witness :
  exists k',
    k' ∈ findall_keys "%(a)s and %(b)s" /\
    dict_get (trim_src (mkMessage "%(a)s and %(b)s" "%(a)s and %(b)s" "xdrs" PNone)
                [("a", PInt 1); ("c", PInt 3)]) k' = None /\
    Message_trim_dictionary_parameters reference_world
      (mkMessage "%(a)s and %(b)s" "%(a)s and %(b)s" "xdrs" PNone)
      [("a", PInt 1); ("c", PInt 3)] = Raise (KeyError k') /\
    Message_sanitize_mod_params reference_world
      (mkMessage "%(a)s and %(b)s" "%(a)s and %(b)s" "xdrs" PNone)
      (PDict [("a", PInt 1); ("c", PInt 3)]) = Raise (KeyError k') /\
    Message_mod reference_world
      (mkMessage "%(a)s and %(b)s" "%(a)s and %(b)s" "xdrs" PNone)
      (PDict [("a", PInt 1); ("c", PInt 3)]) = Raise (KeyError k').
Proof.
  apply (Message_mod_missing_key_raises reference_world
           (mkMessage "%(a)s and %(b)s" "%(a)s and %(b)s" "xdrs" PNone)
           [("a", PInt 1); ("c", PInt 3)] "b").
  - change (findall_keys _) with ["a"; "b"]. rewrite !elem_of_cons. auto.
  - reflexivity.
  - simpl. discriminate.
Defined.


(** ** The dispatcher *)

Section Dispatcher.
Variable W : World.
Variable desired_locale : option string.

(** The body of [translate] as the source has it: the object itself
    when it is a Message, its text coercion otherwise, translated when
    that is a Message. *)
Lemma translate_unfold obj :
  translate W obj desired_locale =
  let message := if is_Message obj then obj else text_type W obj in
  match message with
  | PMsg t i d p =>
      do s <- Message_translate W (mkMessage t i d p) desired_locale ;;
      Ok (PStr s)
  | _ => Ok obj
  end.
Proof.
  destruct obj; reflexivity.
Qed.

Lemma mapM_Ok {A B : Type} (f : A -> result B) xs ys :
  mapM f xs = Ok ys <-> Forall2 (fun x y => f x = Ok y) xs ys.
Proof.
  revert ys. induction xs as [|x xs IH]; intros ys; simpl.
  - split.
    + intros H. injection H as <-. constructor.
    + intros H. inversion H. reflexivity.
  - split.
    + intros H. destruct (f x) as [y|] eqn:E; simpl in H; [|discriminate].
      destruct (mapM f xs) as [ys'|] eqn:E'; simpl in H; [|discriminate].
      injection H as <-. constructor; [exact E | apply IH; reflexivity].
    + intros H. inversion H as [|? y ? ys' Hy Hys]; subst.
      rewrite Hy. simpl. apply IH in Hys. rewrite Hys. reflexivity.
Qed.

Lemma dict_set_fresh {A : Type} (acc : list (string * A)) k v :
  k ∉ dict_keys acc -> dict_set acc k v = (acc ++ [(k, v)])%list.
Proof.
  induction acc as [|[k0 v0] acc IH]; simpl; intros H; auto.
  apply not_elem_of_cons in H as [Hne H].
  destruct (String.eqb_spec k0 k); [congruence|]. rewrite IH; auto.
Qed.

(** On a dict with distinct keys, new to the accumulator, the loop
    appends one item per item, under the same key, in the same order. *)
Lemma translate_items_Ok (tr : pyval -> result pyval) kvs acc r :
  NoDup (dict_keys acc ++ dict_keys kvs) ->
  translate_items tr kvs acc = Ok r <->
  exists kvs',
    r = (acc ++ kvs')%list /\
    Forall2 (fun kv kv' => fst kv' = fst kv /\ tr (snd kv) = Ok (snd kv'))
            kvs kvs'.
Proof.
  revert acc r. induction kvs as [|[k v] kvs IH]; intros acc r Hnd; simpl.
  - split.
    + intros H. injection H as <-. exists []. rewrite app_nil_r.
      split; [reflexivity | constructor].
    + intros (kvs' & -> & H). inversion H. rewrite app_nil_r. reflexivity.
  - simpl in Hnd.
    assert (Hk : k ∉ dict_keys acc).
    { apply NoDup_app in Hnd as (_ & Hd & _). intros Hin.
      apply (Hd k Hin). rewrite elem_of_cons. auto. }
    assert (Hnd' : forall v', NoDup (dict_keys (acc ++ [(k, v')]) ++ dict_keys kvs)).
    { intros v'. unfold dict_keys in *. rewrite map_app. simpl.
      rewrite <- app_assoc. exact Hnd. }
    split.
    + intros H. destruct (tr v) as [v'|] eqn:E; simpl in H; [|discriminate].
      rewrite (dict_set_fresh acc k v' Hk) in H.
      apply (IH _ _ (Hnd' v')) in H as (kvs' & -> & HF).
      exists ((k, v') :: kvs'). rewrite <- app_assoc. split; [reflexivity|].
      constructor; auto.
    + intros (kvs' & -> & HF).
      inversion HF as [|? [k' v'] ? kvs'' [Hfst Hv] HF']; subst.
      simpl in Hfst, Hv. subst k'. rewrite Hv. simpl.
      rewrite (dict_set_fresh acc k v' Hk).
      apply (IH _ _ (Hnd' v')). exists kvs''.
      rewrite <- app_assoc. split; [reflexivity | exact HF'].
Qed.

(** C7: [translate] returns a value that is no Message, and whose text
    coercion is no Message, unchanged.  [_translate_args] returns for a
    tuple the tuple of the translations of its elements, one for one and
    in order; for a dict, the dict with the same keys in which every
    value is replaced by its translation; and for any other value what
    [translate] returns for it. *)
Theorem translate_dispatcher :
  (forall x, is_Message x = false -> is_Message (text_type W x) = false ->
             translate W x desired_locale = Ok x) /\
  (forall xs r,
     translate_args W (PTuple xs) desired_locale = Ok r <->
     exists ys, r = PTuple ys /\
                Forall2 (fun x y => translate W x desired_locale = Ok y) xs ys) /\
  (forall kvs r,
     NoDup (dict_keys kvs) ->
     translate_args W (PDict kvs) desired_locale = Ok r <->
     exists kvs',
       r = PDict kvs' /\
       Forall2 (fun kv kv' =>
                  fst kv' = fst kv /\
                  translate W (snd kv) desired_locale = Ok (snd kv'))
               kvs kvs') /\
  (forall a, is_tuple a = false -> is_dict a = false ->
             translate_args W a desired_locale = translate W a desired_locale).
Proof.
  split; [|split; [|split]].
  - intros x Hx Ht. rewrite translate_unfold. rewrite Hx. simpl.
    destruct (text_type W x); try reflexivity. discriminate.
  - intros xs r. split.
    + intros H. unfold translate_args in H. simpl in H.
      destruct (mapM _ xs) as [ys|] eqn:E; simpl in H; [|discriminate].
      injection H as <-. exists ys. split; [reflexivity|].
      apply mapM_Ok in E. exact E.
    + intros (ys & -> & HF). unfold translate_args. simpl.
      apply mapM_Ok in HF. rewrite HF. reflexivity.
  - intros kvs r H. split.
    + intros Hr. unfold translate_args in Hr. simpl in Hr.
      destruct (translate_items _ kvs []) as [kvs'|] eqn:E; simpl in Hr;
        [|discriminate].
      injection Hr as <-. exists kvs'. split; [reflexivity|].
      apply translate_items_Ok in E as (kvs'' & -> & HF); [exact HF | exact H].
    + intros (kvs' & -> & HF). unfold translate_args. simpl.
      assert (E : translate_items (fun v => translate W v desired_locale) kvs []
                  = Ok kvs').
      { apply translate_items_Ok; [exact H|]. exists kvs'. auto. }
      rewrite E. reflexivity.
  - intros a Ht Hd. destruct a; try reflexivity; discriminate.
Qed.
End Dispatcher.

Lemma translate_dispatcher_witness :
  translate reference_world (PInt 42) None = Ok (PInt 42) /\
  translate_args reference_world
    (PTuple [PMsg "a" "a" "xdrs" PNone; PInt 5]) None
    = Ok (PTuple [PStr "a"; PInt 5]) /\
  translate_args reference_world
    (PDict [("who", PMsg "a" "a" "xdrs" PNone); ("n", PInt 5)]) None
    = Ok (PDict [("who", PStr "a"); ("n", PInt 5)]).
Proof.
  destruct (translate_dispatcher reference_world None) as (H1 & H2 & H3 & _).
  split; [apply H1; reflexivity|]. split.
  - apply H2. eexists. split; [reflexivity|].
    repeat constructor.
  - apply H3.
    + simpl. apply NoDup_cons. split; [|apply NoDup_singleton].
      rewrite list_elem_of_singleton. discriminate.
    + eexists. split; [reflexivity|]. repeat constructor.
Defined.

(** ** Chained substitution *)

Section Chained.
Variable W : World.

(** What [%] returns, taken apart. *)
Lemma Message_mod_Ok (m : Message) other m' :
  Message_mod W m other = Ok m' ->
  exists p s,
    Message_sanitize_mod_params W m other = Ok p /\
    unicode_mod W (text m) p = Ok s /\
    m' = Message_new W (msgid m) (Some s) p (domain m).
Proof.
  unfold Message_mod. intros H.
  destruct (Message_sanitize_mod_params W m other) as [p|]; simpl in H;
    [|discriminate].
  destruct (unicode_mod W (text m) p) as [s|] eqn:E; simpl in H; [|discriminate].
  injection H as <-. exists p, s. auto.
Qed.

(** C1, as the code has it: after [m % p1] and then [% p2], the result
    keeps the message id and domain of [m]; its text is the [%] of the
    parent class applied to the text of [m % p1], the text already
    substituted, with the parameters sanitised from [p2]; and its
    translation to any locale is computed from the translation of the
    message id of [m] and the parameters captured last, whatever the
    text of [m % p1] was. *)
Theorem chained_mod_text_and_translation
    (m : Message) (p1 p2 : pyval) (m1 m2 : Message) :
  Message_mod W m p1 = Ok m1 ->
  Message_mod W m1 p2 = Ok m2 ->
  msgid m2 = msgid m /\ domain m2 = domain m /\
  (exists s, unicode_mod W (text m1) (params m2) = Ok s /\
             m2 = Message_new W (msgid m) (Some s) (params m2) (domain m)) /\
  (forall loc,
     Message_translate W m2 loc =
     let translated_message :=
       Message_translate_msgid W (msgid m) (domain m) loc in
     match params m2 with
     | PNone => Ok translated_message
     | p => do translated_params <- translate_args W p loc ;;
            unicode_mod W translated_message translated_params
     end).
Proof.
  intros H1 H2.
  apply Message_mod_Ok in H1 as (q1 & s1 & _ & _ & ->).
  apply Message_mod_Ok in H2 as (q2 & s2 & _ & Hs2 & ->).
  simpl in *. repeat split.
  - exists s2. auto.
  - intros loc. unfold Message_translate, Message_translate_with. simpl.
    destruct q2; reflexivity.
Qed.

End Chained.

Lemma chained_mod_text_and_translation_witness :
  let m := Message_new reference_world "%(a)s" None PNone "xdrs" in
  let m1 := mkMessage "%(a)s!" "%(a)s" "xdrs" (PDict [("a", PStr "%(a)s!")]) in
  let m2 := mkMessage "z!" "%(a)s" "xdrs" (PDict [("a", PStr "z")]) in
  msgid m2 = msgid m /\ domain m2 = domain m /\
  (exists s, py_format (text m1) (params m2) = Ok s /\
             m2 = Message_new reference_world (msgid m) (Some s) (params m2)
                    (domain m)) /\
  (forall loc, Message_translate reference_world m2 loc = Ok "z").
Proof.
  intros m m1 m2.
  apply (chained_mod_text_and_translation reference_world m
           (PDict [("a", PStr "%(a)s!")]) (PDict [("a", PStr "z")]) m1 m2);
    reflexivity.
Defined.

(** C1 fails as stated: with the message id "%(a)s", a first substitution
    that puts the text "%(a)s!" for the key and a second one that puts
    "z", the text of the result is "z!", formatted from the text of the
    first result, where the translation of the message id gives "z". *)
Lemma restarts_from_msgid_counterexample :
  ~ restarts_from_msgid reference_world
      (Message_new reference_world "%(a)s" None PNone "xdrs")
      (PDict [("a", PStr "%(a)s!")]) (PDict [("a", PStr "z")]).
Proof.
  intros H. specialize (H _ eq_refl). vm_compute in H. discriminate.
Qed.

Example chained_text_compounds :
  let m1 := mkMessage "%(a)s!" "%(a)s" "xdrs" (PDict [("a", PStr "%(a)s!")]) in
  Message_mod reference_world
    (Message_new reference_world "%(a)s" None PNone "xdrs")
    (PDict [("a", PStr "%(a)s!")]) = Ok m1 /\
  Message_mod reference_world m1 (PDict [("a", PStr "z")])
    = Ok (mkMessage "z!" "%(a)s" "xdrs" (PDict [("a", PStr "z")])) /\
  Message_mod_from_msgid reference_world m1 (PDict [("a", PStr "z")])
    = Ok (mkMessage "z" "%(a)s" "xdrs" (PDict [("a", PStr "z")])).
Proof. repeat split; reflexivity. Qed.

Section Merge.
Variable W : World.



End Merge.



Example chained_first_step_raises :
  chained_mod reference_world
    (Message_new reference_world "%(a)s and %(b)s" None PNone "xdrs")
    [("a", PInt 1)] [("b", PInt 2)] = Raise (KeyError "b") /\
  merged_mod reference_world
    (Message_new reference_world "%(a)s and %(b)s" None PNone "xdrs")
    [("a", PInt 1)] [("b", PInt 2)]
  = Ok (mkMessage "1 and 2" "%(a)s and %(b)s" "xdrs"
          (PDict [("a", PInt 1); ("b", PInt 2)])).
Proof. split; reflexivity. Qed.

(** ** The language cache *)

Lemma wf_initial : wf initial_state.
Proof. intros d l H. simpl in H. rewrite lookup_empty in H. discriminate. Qed.

Lemma contents_app_old st_heap (extra : list (list string)) flag cache l :
  l < length st_heap ->
  contents (mkState flag cache (st_heap ++ extra)) l
  = contents (mkState flag cache st_heap) l.
Proof. intros H. unfold contents. simpl. rewrite lookup_app_l by lia. reflexivity. Qed.

Section Cache.
Variable W : World.

(** One call of [get_available_languages]: the list returned is a new
    object, every older list object and every cache entry is left as it
    was, and the new list has the contents of the list cached for the
    domain. *)
Lemma get_available_languages_step dom st l st' :
  wf st ->
  get_available_languages W dom st = (l, st') ->
  wf st' /\
  length (heap st) <= l /\ l < length (heap st') /\
  (forall j, j < length (heap st) -> heap st' !! j = heap st !! j) /\
  (forall d c, _AVAILABLE_LANGUAGES st !! d = Some c ->
               _AVAILABLE_LANGUAGES st' !! d = Some c) /\
  exists c, _AVAILABLE_LANGUAGES st' !! dom = Some c /\ c < l /\
            contents st' l = contents st' c.
Proof.
  intros Hwf. unfold get_available_languages.
  destruct (_AVAILABLE_LANGUAGES st !! dom) as [c|] eqn:Hc.
  - unfold copy_copy, new_list. intros H. injection H as <- <-. simpl.
    pose proof (Hwf _ _ Hc) as Hlt.
    rewrite length_app. simpl. repeat split; try lia.
    + intros d l Hd. simpl in *. rewrite length_app. simpl.
      apply Hwf in Hd. lia.
    + intros j Hj. apply lookup_app_l. exact Hj.
    + auto.
    + exists c. split; [exact Hc|]. split; [exact Hlt|].
      unfold contents. simpl.
      rewrite list_lookup_middle by reflexivity.
      rewrite lookup_app_l by exact Hlt. reflexivity.
  - unfold copy_copy, new_list. simpl. intros H. injection H as <- <-. simpl.
    rewrite !length_app. simpl.
    assert (Hx : contents
              {| USE_LAZY := USE_LAZY st;
                 _AVAILABLE_LANGUAGES :=
                   <[dom:=length (heap st)]> (_AVAILABLE_LANGUAGES st);
                 heap := heap st ++ [language_list_of W dom] |}
              (length (heap st)) = language_list_of W dom).
    { unfold contents. simpl. rewrite list_lookup_middle by reflexivity.
      reflexivity. }
    rewrite Hx. repeat split; try lia.
    + intros d l Hd. simpl in *. rewrite !length_app. simpl.
      destruct (decide (d = dom)) as [->|Hne].
      * rewrite lookup_insert_eq in Hd. injection Hd as <-. lia.
      * rewrite lookup_insert_ne in Hd by congruence. apply Hwf in Hd. lia.
    + intros j Hj. rewrite <- app_assoc. apply lookup_app_l. exact Hj.
    + intros d c Hd. destruct (decide (d = dom)) as [->|Hne].
      * congruence.
      * rewrite lookup_insert_ne by congruence. exact Hd.
    + exists (length (heap st)). split; [apply lookup_insert_eq|].
      split; [lia|]. unfold contents. simpl.
      rewrite <- app_assoc. simpl.
      rewrite (lookup_app_r (heap st)) by lia.
      rewrite (list_lookup_middle (heap st)) by reflexivity.
      replace (length (heap st) + 1 - length (heap st)) with 1 by lia.
      reflexivity.
Qed.

Lemma contents_old st st' j :
  heap st' !! j = heap st !! j -> contents st' j = contents st j.
Proof. unfold contents. intros ->. reflexivity. Qed.

Lemma mutate_wf l xs st : wf st -> wf (mutate l xs st).
Proof.
  intros H d c Hd. unfold mutate in *. simpl in *. rewrite length_insert.
  apply (H d c Hd).
Qed.

Lemma contents_mutate_ne l xs st j :
  j <> l -> contents (mutate l xs st) j = contents st j.
Proof.
  intros H. unfold contents, mutate. simpl.
  rewrite list_lookup_insert_ne by congruence. reflexivity.
Qed.

Lemma contents_mutate_eq l xs st :
  l < length (heap st) -> contents (mutate l xs st) l = xs.
Proof.
  intros H. unfold contents, mutate. simpl.
  rewrite list_lookup_insert_eq by exact H. reflexivity.
Qed.

(** C8: two calls for the same domain return two different list objects
    with equal contents, both different from the cached list object.
    Whatever a caller then stores in the first returned list, the second
    returned list, the cached list and the cache keep their contents,
    and the next call still returns the original contents.  A call for
    any domain leaves every existing cache entry, and the contents of
    the list it names, as they were. *)
Theorem get_available_languages_copy_on_read (dom : string) (st : State) :
  wf st ->
  (forall l1 st1 l2 st2,
     get_available_languages W dom st = (l1, st1) ->
     get_available_languages W dom st1 = (l2, st2) ->
     l1 <> l2 /\
     contents st2 l1 = contents st2 l2 /\
     exists c,
       _AVAILABLE_LANGUAGES st1 !! dom = Some c /\
       _AVAILABLE_LANGUAGES st2 !! dom = Some c /\
       c <> l1 /\ c <> l2 /\
       contents st2 c = contents st1 c /\
       contents st2 c = contents st2 l1 /\
       forall xs,
         let st3 := mutate l1 xs st2 in
         contents st3 l1 = xs /\
         contents st3 l2 = contents st2 l2 /\
         contents st3 c = contents st2 c /\
         _AVAILABLE_LANGUAGES st3 = _AVAILABLE_LANGUAGES st2 /\
         forall l4 st4,
           get_available_languages W dom st3 = (l4, st4) ->
           l4 <> l1 /\ contents st4 l4 = contents st2 l2) /\
  (forall d c l' st',
     _AVAILABLE_LANGUAGES st !! d = Some c ->
     get_available_languages W dom st = (l', st') ->
     _AVAILABLE_LANGUAGES st' !! d = Some c /\
     contents st' c = contents st c).
Proof.
  intros Hwf. split.
  - intros l1 st1 l2 st2 E1 E2.
    destruct (get_available_languages_step _ _ _ _ Hwf E1)
      as (Hwf1 & Hfresh1 & Hlive1 & Hold1 & Hkeep1 & c & Hc1 & Hcl1 & Hcont1).
    destruct (get_available_languages_step _ _ _ _ Hwf1 E2)
      as (Hwf2 & Hfresh2 & Hlive2 & Hold2 & Hkeep2 & c2 & Hc2 & Hcl2 & Hcont2).
    pose proof (Hkeep2 _ _ Hc1) as Hc2'. rewrite Hc2 in Hc2'.
    injection Hc2' as ->.
    assert (Hl1 : contents st2 l1 = contents st1 l1)
      by (apply contents_old, Hold2; lia).
    assert (Hcc : contents st2 c = contents st1 c)
      by (apply contents_old, Hold2; lia).
    split; [lia|]. split; [congruence|].
    exists c. repeat split; try assumption; try lia; try congruence.
    + apply contents_mutate_eq. lia.
    + apply contents_mutate_ne. lia.
    + apply contents_mutate_ne. lia.
    + destruct (get_available_languages_step _ _ _ _
                  (mutate_wf l1 xs st2 Hwf2) H)
        as (_ & Hfresh4 & _). unfold mutate in Hfresh4. simpl in Hfresh4.
      rewrite length_insert in Hfresh4. lia.
    + destruct (get_available_languages_step _ _ _ _
                  (mutate_wf l1 xs st2 Hwf2) H)
        as (_ & _ & _ & Hold4 & Hkeep4 & c4 & Hc4 & Hcl4 & Hcont4).
      pose proof (Hkeep4 _ _ Hc2) as Hc4'. rewrite Hc4 in Hc4'.
      injection Hc4' as ->. rewrite Hcont4.
      rewrite (contents_old (mutate l1 xs st2) st4 c).
      * rewrite contents_mutate_ne by lia. congruence.
      * apply Hold4. unfold mutate. simpl. rewrite length_insert. lia.
  - intros d c l' st' Hd E.
    destruct (get_available_languages_step _ _ _ _ Hwf E)
      as (_ & _ & _ & Hold & Hkeep & _).
    split; [apply Hkeep, Hd|]. apply contents_old, Hold, (Hwf _ _ Hd).
Qed.
End Cache.

Lemma get_available_languages_copy_on_read_witness :
  let r1 := get_available_languages catalog_world "xdrs" initial_state in
  let r2 := get_available_languages catalog_world "xdrs" (snd r1) in
  fst r1 <> fst r2 /\
  contents (snd r2) (fst r1) = contents (snd r2) (fst r2) /\
  contents (mutate (fst r1) [] (snd r2)) (fst r2) = contents (snd r2) (fst r2).
Proof.
  intros r1 r2.
  destruct (get_available_languages_copy_on_read catalog_world "xdrs"
              initial_state wf_initial) as [H _].
  destruct (H (fst r1) (snd r1) (fst r2) (snd r2))
    as (Hne & Heq & c & _ & _ & _ & _ & _ & _ & Hmut).
  - apply surjective_pairing.
  - apply surjective_pairing.
  - destruct (Hmut []) as (_ & H2 & _). auto.
Defined.

Example get_available_languages_run :
  let r1 := get_available_languages catalog_world "xdrs" initial_state in
  let r2 := get_available_languages catalog_world "xdrs" (snd r1) in
  fst r1 = 1 /\ fst r2 = 2 /\
  _AVAILABLE_LANGUAGES (snd r2) !! "xdrs" = Some 0 /\
  heap (snd r2) = [["en_US"; "fr"; "zh"; "zh_CN"];
                   ["en_US"; "fr"; "zh"; "zh_CN"];
                   ["en_US"; "fr"; "zh"; "zh_CN"]].
Proof. vm_compute. repeat split; reflexivity. Qed.

(** * Further properties of the module *)

(** ** Locales *)

(** Induction on values that reaches the elements of tuples and the values
    of dicts. *)
Lemma pyval_nested_ind (P : pyval -> Prop) :
  P PNone ->
  (forall n, P (PInt n)) ->
  (forall s, P (PStr s)) ->
  (forall xs, Forall P xs -> P (PTuple xs)) ->
  (forall kvs, Forall (fun kv => P (snd kv)) kvs -> P (PDict kvs)) ->
  (forall t i d p, P p -> P (PMsg t i d p)) ->
  (forall n u, P u -> P (PObj n u)) ->
  forall v, P v.
Proof.
  intros HNone HInt HStr HTuple HDict HMsg HObj.
  fix IH 1. intros v. destruct v as [ | n | s | xs | kvs | t i d p | n u].
  - exact HNone.
  - apply HInt.
  - apply HStr.
  - apply HTuple. induction xs as [|x xs IHxs]; constructor;
      [apply IH | exact IHxs].
  - apply HDict. induction kvs as [|[k x] kvs IHkvs]; constructor;
      [apply IH | exact IHkvs].
  - apply HMsg, IH.
  - apply HObj, IH.
Qed.

Lemma mapM_ext {A B : Type} (f g : A -> result B) xs :
  Forall (fun x => f x = g x) xs -> mapM f xs = mapM g xs.
Proof.
  induction 1 as [|x xs Hx _ IH]; simpl; [reflexivity|].
  rewrite Hx, IH. reflexivity.
Qed.

Lemma translate_items_ext (f g : pyval -> result pyval) kvs acc :
  Forall (fun kv => f (snd kv) = g (snd kv)) kvs ->
  translate_items f kvs acc = translate_items g kvs acc.
Proof.
  intros H. revert acc. induction H as [|[k v] kvs Hx _ IH]; intros acc; simpl;
    [reflexivity|].
  simpl in Hx. rewrite Hx. destruct (g v); simpl; [apply IH | reflexivity].
Qed.

Lemma truthy_fixed o l : truthy o = Some l -> truthy (Some l) = Some l.
Proof.
  destruct o as [s|]; simpl; [|discriminate].
  destruct (String.eqb s "") eqn:E; [discriminate|].
  intros H. injection H as <-. rewrite E. reflexivity.
Qed.

Lemma default_locale_truthy W : truthy (Some (default_locale W)) = Some (default_locale W).
Proof.
  unfold default_locale. destruct (truthy (getdefaultlocale W)) as [l|] eqn:E.
  - apply (truthy_fixed _ _ E).
  - reflexivity.
Qed.

Lemma Message_translate_msgid_effective W i d loc :
  Message_translate_msgid W i d loc =
  ugettext (catalog W d (environ W (upper d ++ "_LOCALEDIR"))
              (Some [effective_locale W loc])) i.
Proof. reflexivity. Qed.

(** Two requested locales that come down to the same effective locale
    give the same translation, of any value and of any arguments. *)
Lemma translate_locale_ext W loc1 loc2 :
  effective_locale W loc1 = effective_locale W loc2 ->
  forall v, translate W v loc1 = translate W v loc2 /\
            translate_args W v loc1 = translate_args W v loc2.
Proof.
  intros Heff.
  assert (Hmsg : forall i d p,
    translate_args W p loc1 = translate_args W p loc2 ->
    Message_translate_with W (fun v => translate W v loc1) i d p loc1 =
    Message_translate_with W (fun v => translate W v loc2) i d p loc2).
  { intros i d p Hp. unfold Message_translate_with.
    rewrite !Message_translate_msgid_effective, Heff.
    unfold translate_args in Hp. destruct p; try reflexivity; rewrite Hp;
      reflexivity. }
  induction v as [ | n | s | xs IH | kvs IH | t i d p [IHp IHa] | n u [IHu IHa]]
    using pyval_nested_ind; try (split; reflexivity).
  - split; [reflexivity|]. unfold translate_args. simpl.
    rewrite (mapM_ext (fun v => translate W v loc1) (fun v => translate W v loc2));
      [reflexivity|].
    eapply Forall_impl; [exact IH|]. intros x [Hx _]. exact Hx.
  - split; [reflexivity|]. unfold translate_args. simpl.
    rewrite (translate_items_ext (fun v => translate W v loc1)
               (fun v => translate W v loc2)); [reflexivity|].
    eapply Forall_impl; [exact IH|]. intros x [Hx _]. exact Hx.
  - assert (E : translate W (PMsg t i d p) loc1 = translate W (PMsg t i d p) loc2).
    { simpl. rewrite (Hmsg i d p IHa). reflexivity. }
    split; [exact E|]. unfold translate_args. simpl. exact E.
  - assert (E : translate W (PObj n u) loc1 = translate W (PObj n u) loc2).
    { destruct u; try reflexivity. exact IHu. }
    split; [exact E|]. unfold translate_args. destruct u; exact E.
Qed.

(** X1: asking for no locale, or for the empty one, is asking for the
    default locale (the system's, or en_US when the system has none): the
    dispatcher, the argument translation and [Message.translate] return
    the same in the three cases, parameters nested in Messages
    included. *)
Theorem translate_without_locale_uses_default
    (W : World) (obj : pyval) (m : Message) :
  translate W obj None = translate W obj (Some (default_locale W)) /\
  translate W obj (Some "") = translate W obj (Some (default_locale W)) /\
  translate_args W obj None = translate_args W obj (Some (default_locale W)) /\
  Message_translate W m None = Message_translate W m (Some (default_locale W)) /\
  Message_translate W m (Some "") = Message_translate W m (Some (default_locale W)).
Proof.
  assert (E1 : effective_locale W None = effective_locale W (Some (default_locale W))).
  { unfold effective_locale. rewrite default_locale_truthy. reflexivity. }
  assert (E2 : effective_locale W (Some "")
               = effective_locale W (Some (default_locale W))).
  { unfold effective_locale. rewrite default_locale_truthy. reflexivity. }
  destruct (translate_locale_ext W _ _ E1 obj) as [H1 H1a].
  destruct (translate_locale_ext W _ _ E2 obj) as [H2 _].
  repeat split; auto.
  - destruct (translate_locale_ext W _ _ E1 (to_val m)) as [H _].
    unfold to_val in H. simpl in H. unfold Message_translate.
    destruct (Message_translate_with W _ (msgid m) (domain m) (params m) None),
      (Message_translate_with W _ (msgid m) (domain m) (params m)
         (Some (default_locale W))); simpl in H; congruence.
  - destruct (translate_locale_ext W _ _ E2 (to_val m)) as [H _].
    unfold to_val in H. simpl in H. unfold Message_translate.
    destruct (Message_translate_with W _ (msgid m) (domain m) (params m) (Some "")),
      (Message_translate_with W _ (msgid m) (domain m) (params m)
         (Some (default_locale W))); simpl in H; congruence.
Qed.

(** ** What the dispatcher returns *)

Lemma translate_untranslatable W v loc :
  translatable W v = false -> translate W v loc = Ok v.
Proof.
  unfold translatable. intros H. apply orb_false_elim in H as [Hm Ht].
  destruct v as [ | | | | | |n u]; try reflexivity; try discriminate.
  simpl in Ht. destruct u; try reflexivity; discriminate.
Qed.

(** X2: a value returned by [translate] is never a Message nor an object
    that coerces to one, so translating it again, to whatever locale,
    returns it unchanged. *)
Theorem translate_result_is_final
    (W : World) (obj : pyval) (loc : option string) (r : pyval) :
  translate W obj loc = Ok r ->
  translatable W r = false /\
  forall loc', translate W r loc' = Ok r.
Proof.
  intros H.
  assert (Hr : translatable W r = false).
  { destruct obj as [ | | | | | t i d p | n u]; simpl in H;
      try (injection H as <-; reflexivity).
    - destruct (Message_translate_with W _ i d p loc); simpl in H;
        [injection H as <-; reflexivity | discriminate].
    - destruct u as [ | | | | | t i d p | n' u']; simpl in H;
        try (injection H as <-; reflexivity).
      destruct (Message_translate_with W _ i d p loc); simpl in H;
        [injection H as <-; reflexivity | discriminate]. }
  split; [exact Hr|]. intros loc'. apply translate_untranslatable, Hr.
Qed.

Lemma translate_result_is_final_witness :
  translatable reference_world (PStr "a 5") = false /\
  forall loc', translate reference_world (PStr "a 5") loc' = Ok (PStr "a 5").
Proof.
  apply (translate_result_is_final reference_world
           (PObj 3 (PMsg "a 5" "a %d" "xdrs" (PTuple [PInt 5]))) (Some "de")).
  reflexivity.
Defined.

(** X3: arguments that hold nothing translatable come back equal: a tuple
    whose elements are no Messages (and coerce to none), and a dict, of
    distinct keys, whose values are such. *)
Theorem translate_args_nothing_to_translate (W : World) (loc : option string) :
  (forall xs,
     Forall (fun x => translatable W x = false) xs ->
     translate_args W (PTuple xs) loc = Ok (PTuple xs)) /\
  (forall kvs,
     NoDup (dict_keys kvs) ->
     Forall (fun kv => translatable W (snd kv) = false) kvs ->
     translate_args W (PDict kvs) loc = Ok (PDict kvs)).
Proof.
  split.
  - intros xs H. unfold translate_args. simpl.
    assert (E : mapM (fun v => translate W v loc) xs = Ok xs).
    { apply mapM_Ok. induction H as [|x xs Hx _ IH]; [constructor|].
      constructor; [apply translate_untranslatable, Hx | exact IH]. }
    rewrite E. reflexivity.
  - intros kvs Hnd H. unfold translate_args. simpl.
    assert (E : translate_items (fun v => translate W v loc) kvs [] = Ok kvs).
    { apply translate_items_Ok; [exact Hnd|]. exists kvs. split; [reflexivity|].
      clear Hnd. induction H as [|kv kvs Hx _ IH]; [constructor|].
      constructor; [|exact IH].
      split; [reflexivity | apply translate_untranslatable, Hx]. }
    rewrite E. reflexivity.
Qed.

Lemma translate_args_nothing_to_translate_witness :
  translate_args reference_world
    (PTuple [PInt 1; PStr "two"; PTuple [PMsg "a" "a" "xdrs" PNone]]) (Some "de")
  = Ok (PTuple [PInt 1; PStr "two"; PTuple [PMsg "a" "a" "xdrs" PNone]]) /\
  translate_args reference_world
    (PDict [("n", PInt 1); ("who", PNone)]) (Some "de")
  = Ok (PDict [("n", PInt 1); ("who", PNone)]).
Proof.
  destruct (translate_args_nothing_to_translate reference_world (Some "de"))
    as [Ht Hd].
  split.
  - apply Ht. repeat constructor.
  - apply Hd.
    + simpl. apply NoDup_cons. split; [|apply NoDup_singleton].
      rewrite list_elem_of_singleton. discriminate.
    + repeat constructor.
Defined.

Lemma mapM_first_error {A B : Type} (f : A -> result B) pre x post ys e :
  Forall2 (fun a b => f a = Ok b) pre ys ->
  f x = Raise e ->
  mapM f (pre ++ x :: post) = Raise e.
Proof.
  intros H Hx. induction H as [|a b pre ys Ha _ IH]; simpl.
  - rewrite Hx. reflexivity.
  - rewrite Ha. simpl. rewrite IH. reflexivity.
Qed.

(** X4: an error raised while a parameter is translated is not swallowed.
    When the elements before [x] of a tuple translate and the translation
    of [x] raises [e], [_translate_args] raises [e], and so does
    [Message.translate] of a Message holding that tuple as parameters, and
    so does [translate] of that Message. *)
Theorem translate_args_tuple_raises_first_error
    (W : World) (loc : option string)
    (pre : list pyval) (x : pyval) (post ys : list pyval) (e : exn)
    (t i d : string) :
  Forall2 (fun a b => translate W a loc = Ok b) pre ys ->
  translate W x loc = Raise e ->
  translate_args W (PTuple (pre ++ x :: post)) loc = Raise e /\
  Message_translate W (mkMessage t i d (PTuple (pre ++ x :: post))) loc = Raise e /\
  translate W (PMsg t i d (PTuple (pre ++ x :: post))) loc = Raise e.
Proof.
  intros Hpre Hx.
  assert (E : mapM (fun v => translate W v loc) (pre ++ x :: post) = Raise e)
    by (eapply mapM_first_error; eauto).
  unfold translate_args, Message_translate. simpl.
  unfold Message_translate_with. simpl. rewrite E. auto.
Qed.

Lemma translate_args_tuple_raises_first_error_witness :
  let bad := PMsg "%s" "%s" "xdrs" (PTuple []) in
  let e := TypeError (PStr "not enough arguments for format string") in
  translate_args reference_world (PTuple ([PInt 1] ++ bad :: [PInt 3])) None
    = Raise e /\
  Message_translate reference_world
    (mkMessage "t" "%d %s %d" "xdrs" (PTuple ([PInt 1] ++ bad :: [PInt 3]))) None
    = Raise e /\
  translate reference_world
    (PMsg "t" "%d %s %d" "xdrs" (PTuple ([PInt 1] ++ bad :: [PInt 3]))) None
    = Raise e.
Proof.
  intros bad e.
  apply (translate_args_tuple_raises_first_error reference_world None
           [PInt 1] bad [PInt 3] [PInt 1] e "t" "%d %s %d" "xdrs").
  - repeat constructor.
  - reflexivity.
Defined.

(** ** The result of [%] *)

(** X5: the Message returned by [m % other] keeps the message id and the
    domain of [m], and its text is what the [%] of the parent class gives
    for the text of [m] and the sanitised parameters, with one exception:
    when that is the empty string, the constructor takes it for a missing
    text and the Message gets the default-locale translation of the
    message id as its text. *)
Theorem Message_mod_text_of_result
    (W : World) (m : Message) (other : pyval) (m' : Message) :
  Message_mod W m other = Ok m' ->
  msgid m' = msgid m /\ domain m' = domain m /\
  Message_sanitize_mod_params W m other = Ok (params m') /\
  exists s,
    unicode_mod W (text m) (params m') = Ok s /\
    text m' = if String.eqb s ""
              then Message_translate_msgid W (msgid m) (domain m) None
              else s.
Proof.
  intros H. apply Message_mod_Ok in H as (p & s & Hp & Hs & ->). simpl.
  repeat split; auto. exists s. split; [exact Hs|].
  unfold truthy. destruct (String.eqb s ""); reflexivity.
Qed.

Lemma Message_mod_text_of_result_witness :
  let m := Message_new reference_world "%s" None PNone "xdrs" in
  let m' := mkMessage "%s" "%s" "xdrs" (PStr "") in
  msgid m' = msgid m /\ domain m' = domain m /\
  Message_sanitize_mod_params reference_world m (PStr "") = Ok (params m') /\
  exists s,
    py_format (text m) (params m') = Ok s /\
    text m' = if String.eqb s ""
              then Message_translate_msgid reference_world "%s" "xdrs" None
              else s.
Proof.
  intros m m'.
  apply (Message_mod_text_of_result reference_world m (PStr "") m').
  reflexivity.
Defined.

(** ** Message ids without conversions *)








(** ** What the trimmed dict holds *)

Lemma defaults_get (m : Message) D k :
  params m = PDict D -> NoDup (dict_keys D) ->
  dict_get (defaults m) k = dict_get D k.
Proof.
  intros Hp Hnd. unfold defaults. rewrite Hp.
  rewrite dict_get_update by exact Hnd. destruct (dict_get D k); reflexivity.
Qed.



(** ** The scan for named keys *)

Lemma take_word_all_word s : all_word (fst (take_word s)) = true.
Proof.
  induction s as [|c r IH]; simpl; [reflexivity|].
  destruct (is_word c) eqn:E; [|reflexivity].
  destruct (take_word r) as [w r']. simpl in *. rewrite E, IH. reflexivity.
Qed.

Lemma match_named_all_word s k n :
  match_named s = Some (k, n) -> all_word k = true.
Proof.
  destruct s as [|c0 [|c1 r]]; simpl; try discriminate.
  destruct (is_percent c0 && Ascii.eqb c1 "("); [|discriminate].
  pose proof (take_word_all_word r) as Hw.
  destruct (take_word r) as [w r']. simpl in Hw.
  destruct r' as [|c2 [|c3 r'']]; try discriminate.
  destruct (Ascii.eqb c2 ")" && is_lower c3); [|discriminate].
  intros H. injection H as <- _. exact Hw.
Qed.

Lemma match_key_at_all_word s k n :
  match_key_at s = Some (k, n) -> all_word k = true.
Proof.
  unfold match_key_at. destruct s as [|c r].
  - apply match_named_all_word.
  - destruct (is_percent c).
    + apply match_named_all_word.
    + destruct (match_named r) as [[k' n']|] eqn:E.
      * intros H. injection H as <- _. apply (match_named_all_word _ _ _ E).
      * apply match_named_all_word.
Qed.

Lemma findall_keys_from_all_word s skip :
  Forall (fun k => all_word k = true) (findall_keys_from skip s).
Proof.
  revert skip. induction s as [|c r IH]; intros skip; [constructor|].
  cbn [findall_keys_from]. destruct skip; [|apply IH].
  destruct (match_key_at (String c r)) as [[k n]|] eqn:E; [|apply IH].
  constructor; [apply (match_key_at_all_word _ _ _ E) | apply IH].
Qed.

(** X8: every key the scan finds in a message id is made of word
    characters only (letters, digits, underscore; possibly none), so a
    parenthesised name with a space, a dot or a dash in it is never taken
    for a key to trim to. *)
Theorem findall_keys_are_words (msgid : string) :
  Forall (fun k => all_word k = true) (findall_keys msgid).
Proof. apply findall_keys_from_all_word. Qed.

Lemma take_word_stop k c r :
  all_word k = true -> is_word c = false ->
  take_word (k ++ String c r) = (k, String c r).
Proof.
  intros Hk Hc. induction k as [|a k IH]; simpl.
  - rewrite Hc. reflexivity.
  - simpl in Hk. apply andb_true_iff in Hk as [Ha Hk].
    rewrite Ha, (IH Hk). reflexivity.
Qed.

Lemma match_named_conversion k c post :
  all_word k = true -> is_lower c = true ->
  match_named ("%(" ++ k ++ ")" ++ String c post)
  = Some (k, 4 + String.length k).
Proof.
  intros Hk Hc.
  change ("%(" ++ k ++ ")" ++ String c post)
    with (String "%" (String "(" (k ++ String ")" (String c post)))).
  unfold match_named.
  change (is_percent "%" && Ascii.eqb "(" "(") with true. cbv iota.
  rewrite (take_word_stop k ")" (String c post) Hk eq_refl).
  change (Ascii.eqb ")" ")") with true. rewrite Hc. reflexivity.
Qed.

Lemma findall_keys_from_skip s1 s2 :
  findall_keys_from (String.length s1) (s1 ++ s2) = findall_keys_from 0 s2.
Proof. induction s1 as [|a s1 IH]; simpl; [reflexivity | exact IH]. Qed.

Lemma append_cons a s t : String a s ++ t = String a (s ++ t).
Proof. reflexivity. Qed.

Lemma append_length s t :
  String.length (s ++ t) = String.length s + String.length t.
Proof.
  induction s as [|a s IH]; [reflexivity|].
  rewrite append_cons. cbn [String.length]. rewrite IH. reflexivity.
Qed.

Lemma append_assoc s t u : (s ++ t) ++ u = s ++ t ++ u.
Proof.
  induction s as [|a s IH]; [reflexivity|].
  rewrite !append_cons, IH. reflexivity.
Qed.

Lemma length_conversion_tail k c :
  String.length ("(" ++ k ++ ")" ++ String c "") = 3 + String.length k.
Proof. rewrite !append_length. cbn [String.length]. lia. Qed.

Lemma append_assoc_conversion k c post :
  "(" ++ k ++ ")" ++ String c post = ("(" ++ k ++ ")" ++ String c "") ++ post.
Proof. rewrite !append_assoc. reflexivity. Qed.

(** X9: the scan composes.  When the text before a named conversion has
    no percent sign, the key is a word and the conversion character a
    lower-case letter, the keys of the whole text are that key followed by
    the keys of the text after the conversion. *)
Theorem findall_keys_conversion (pre k : string) (c : ascii) (post : string) :
  no_percent pre = true ->
  all_word k = true ->
  is_lower c = true ->
  findall_keys (pre ++ "%(" ++ k ++ ")" ++ String c post)
  = k :: findall_keys post.
Proof.
  intros Hpre Hk Hc. unfold findall_keys.
  pose proof (match_named_conversion k c post Hk Hc) as Hbody.
  assert (Htail :
    findall_keys_from (3 + String.length k) ("(" ++ k ++ ")" ++ String c post)
    = findall_keys_from 0 post).
  { rewrite append_assoc_conversion, <- length_conversion_tail with (c := c).
    apply findall_keys_from_skip. }
  assert (Hhere :
    findall_keys_from 0 ("%(" ++ k ++ ")" ++ String c post)
    = k :: findall_keys_from 0 post).
  { change ("%(" ++ k ++ ")" ++ String c post)
      with (String "%" ("(" ++ k ++ ")" ++ String c post)) in *.
    cbn [findall_keys_from]. unfold match_key_at at 1.
    change (is_percent "%") with true. cbv iota. rewrite Hbody.
    replace (4 + String.length k - 1) with (3 + String.length k) by lia.
    rewrite Htail. reflexivity. }
  induction pre as [|a pre IH].
  - exact Hhere.
  - simpl in Hpre. apply andb_true_iff in Hpre as [Ha Hpre'].
    apply negb_true_iff in Ha.
    change (String a pre ++ "%(" ++ k ++ ")" ++ String c post)
      with (String a (pre ++ "%(" ++ k ++ ")" ++ String c post)).
    cbn [findall_keys_from]. unfold match_key_at at 1. rewrite Ha.
    destruct pre as [|b pre'].
    + change ("" ++ "%(" ++ k ++ ")" ++ String c post)
        with ("%(" ++ k ++ ")" ++ String c post).
      rewrite Hbody.
      replace (S (4 + String.length k) - 1) with (S (3 + String.length k)) by lia.
      change ("%(" ++ k ++ ")" ++ String c post)
        with (String "%" ("(" ++ k ++ ")" ++ String c post)).
      cbn [findall_keys_from]. rewrite Htail. reflexivity.
    + assert (Hn : match_named (String b pre' ++ "%(" ++ k ++ ")" ++ String c post)
                   = None).
      { simpl in Hpre'. apply andb_true_iff in Hpre' as [Hb _].
        apply negb_true_iff in Hb.
        change (String b pre' ++ "%(" ++ k ++ ")" ++ String c post)
          with (String b (pre' ++ "%(" ++ k ++ ")" ++ String c post)).
        unfold match_named.
        destruct (pre' ++ "%(" ++ k ++ ")" ++ String c post); [reflexivity|].
        rewrite Hb. reflexivity. }
      rewrite Hn.
      assert (Hn' : match_named
                      (String a (String b pre' ++ "%(" ++ k ++ ")" ++ String c post))
                    = None).
      { change (String b pre' ++ "%(" ++ k ++ ")" ++ String c post)
          with (String b (pre' ++ "%(" ++ k ++ ")" ++ String c post)).
        unfold match_named. rewrite Ha. reflexivity. }
      rewrite Hn'. apply IH, Hpre'.
Qed.

Lemma findall_keys_conversion_witness :
  findall_keys ("Hello " ++ "%(" ++ "name" ++ ")" ++ String "s" ", bye")
  = "name" :: findall_keys ", bye".
Proof.
  apply (findall_keys_conversion "Hello " "name" "s" ", bye"); reflexivity.
Defined.

(** ** The language list *)

Lemma contains_elem (l : list string) x : contains l x = true <-> x ∈ l.
Proof.
  unfold contains. rewrite existsb_exists. split.
  - intros (y & Hy & E). apply String.eqb_eq in E as ->.
    apply list_elem_of_In, Hy.
  - intros H. exists x. split; [apply list_elem_of_In, H | apply String.eqb_refl].
Qed.

Lemma elem_of_filter (f : string -> bool) l x :
  x ∈ List.filter f l <-> x ∈ l /\ f x = true.
Proof. rewrite !list_elem_of_In. apply filter_In. Qed.

Lemma fold_left_found (f : string -> bool) ids (acc : list string) :
  fold_left (fun (ll : list string) i => if f i then (ll ++ [i])%list else ll)
            ids acc
  = (acc ++ List.filter f ids)%list.
Proof.
  revert acc. induction ids as [|i ids IH]; intros acc; simpl.
  - rewrite app_nil_r. reflexivity.
  - rewrite IH. destruct (f i); [|reflexivity].
    rewrite <- app_assoc. reflexivity.
Qed.

Lemma language_list_of_fold W dom :
  language_list_of W dom = fold_left alias_step aliases (found_languages W dom).
Proof.
  unfold language_list_of, found_languages. rewrite fold_left_found. reflexivity.
Qed.

Lemma alias_step_elem ll la y :
  y ∈ alias_step ll la <-> y ∈ ll \/ (y = snd la /\ fst la ∈ ll).
Proof.
  unfold alias_step.
  destruct (contains ll (fst la)) eqn:Ek; simpl.
  - apply contains_elem in Ek.
    destruct (contains ll (snd la)) eqn:Ea; simpl.
    + apply contains_elem in Ea. split; [auto | intros [?|[-> _]]; auto].
    + rewrite elem_of_app, list_elem_of_singleton. tauto.
  - split; [auto | intros [?|[_ H]]; auto].
    apply contains_elem in H. congruence.
Qed.

Lemma alias_fold_elem als ll x :
  (forall la la', la ∈ als -> la' ∈ als -> fst la <> snd la') ->
  x ∈ fold_left alias_step als ll <->
  x ∈ ll \/ exists la, la ∈ als /\ snd la = x /\ fst la ∈ ll.
Proof.
  revert ll. induction als as [|la0 als IH]; intros ll Hsep; simpl.
  - split; [auto | intros [?|(la & H & _)]; auto].
    apply elem_of_nil in H as [].
  - rewrite IH.
    2:{ intros la la' H H'. apply Hsep; rewrite elem_of_cons; auto. }
    rewrite alias_step_elem. split.
    + intros [[H|[-> H]]|(la & Hla & <- & H)].
      * auto.
      * right. exists la0. rewrite elem_of_cons. auto.
      * apply alias_step_elem in H as [H|[H _]].
        -- right. exists la. rewrite elem_of_cons. auto.
        -- exfalso. apply (Hsep la la0); [rewrite elem_of_cons; auto| |exact H].
           rewrite elem_of_cons. auto.
    + intros [H|(la & Hla & <- & H)]; [auto|].
      apply elem_of_cons in Hla as [->|Hla]; [auto|].
      right. exists la. split; [exact Hla|]. split; [reflexivity|].
      apply alias_step_elem. auto.
Qed.

Lemma alias_fold_tail als ll :
  exists tail,
    fold_left alias_step als ll = (ll ++ tail)%list /\
    Forall (fun a => a ∈ map snd als) tail.
Proof.
  revert ll. induction als as [|la als IH]; intros ll; simpl.
  - exists []. rewrite app_nil_r. split; [reflexivity | constructor].
  - destruct (IH (alias_step ll la)) as (tail & -> & Ht).
    assert (Ht' : Forall (fun a => a ∈ snd la :: map snd als) tail).
    { eapply Forall_impl; [exact Ht|]. intros a Ha. rewrite elem_of_cons. auto. }
    unfold alias_step.
    destruct (contains ll (fst la) && negb (contains ll (snd la))).
    + exists (snd la :: tail). rewrite <- app_assoc. split; [reflexivity|].
      constructor; [rewrite elem_of_cons; auto | exact Ht'].
    + exists tail. auto.
Qed.

Lemma aliases_separate :
  forall la la', la ∈ aliases -> la' ∈ aliases -> fst la <> snd la'.
Proof.
  intros la la' H H'. apply list_elem_of_In in H, H'. simpl in H, H'.
  intuition (subst; discriminate).
Qed.

(** X10: the list built for a domain starts with en_US, continues with
    the locales of Babel's list for which gettext finds a catalog of the
    domain, in Babel's order, and ends with alias codes only. *)
Theorem language_list_of_shape (W : World) (dom : string) :
  exists tail,
    language_list_of W dom =
      ("en_US" ::
       List.filter
         (fun x => gettext_find W dom (environ W (upper dom ++ "_LOCALEDIR")) x)
         (locale_identifiers W) ++ tail)%list /\
    Forall (fun a => a ∈ ["zh_CN"; "zh_HK"; "zh_TW"; "tl_PH"]) tail.
Proof.
  rewrite language_list_of_fold.
  destruct (alias_fold_tail aliases (found_languages W dom)) as (tail & -> & Ht).
  exists tail. split; [reflexivity | exact Ht].
Qed.

(** X11: a code is in the list built for a domain exactly when it is
    en_US, or a locale of Babel's list with a catalog, or the alias of
    such a locale in the alias table.  So whenever the list has one of zh,
    zh_Hant_HK, zh_Hant, fil, it also has its alias zh_CN, zh_HK, zh_TW,
    tl_PH. *)
Theorem language_list_of_members (W : World) (dom : string) :
  (forall x,
     x ∈ language_list_of W dom <->
     x ∈ found_languages W dom \/
     exists locale, (locale, x) ∈ aliases /\ locale ∈ found_languages W dom) /\
  (forall locale alias,
     (locale, alias) ∈ aliases ->
     locale ∈ language_list_of W dom -> alias ∈ language_list_of W dom).
Proof.
  assert (Hmem : forall x,
    x ∈ language_list_of W dom <->
    x ∈ found_languages W dom \/
    exists locale, (locale, x) ∈ aliases /\ locale ∈ found_languages W dom).
  { intros x. rewrite language_list_of_fold.
    rewrite (alias_fold_elem aliases _ x aliases_separate). split.
    - intros [H|([l a] & Hla & <- & H)]; [auto|]. right. exists l. auto.
    - intros [H|(l & Hla & H)]; [auto|]. right. exists (l, x). auto. }
  split; [exact Hmem|].
  intros locale alias Hla Hin. apply Hmem. right. exists locale.
  split; [exact Hla|].
  apply Hmem in Hin as [H|(l & Hl & _)]; [exact H|].
  exfalso. apply (aliases_separate (locale, alias) (l, locale) Hla Hl).
  reflexivity.
Qed.

Lemma language_list_of_members_witness :
  "zh_CN" ∈ language_list_of catalog_world "xdrs".
Proof.
  destruct (language_list_of_members catalog_world "xdrs") as [_ H].
  apply (H "zh" "zh_CN").
  - unfold aliases. rewrite elem_of_cons. auto.
  - change (language_list_of catalog_world "xdrs")
      with ["en_US"; "fr"; "zh"; "zh_CN"].
    rewrite !elem_of_cons. auto.
Defined.

Lemma filter_NoDup (f : string -> bool) l : NoDup l -> NoDup (List.filter f l).
Proof.
  induction l as [|x l IH]; simpl; intros H; [exact H|].
  apply NoDup_cons in H as [Hx Hl]. destruct (f x); [|auto].
  apply NoDup_cons. split; [|auto].
  intros Hin. apply elem_of_filter in Hin as [Hin _]. auto.
Qed.

Lemma alias_step_NoDup ll la : NoDup ll -> NoDup (alias_step ll la).
Proof.
  intros H. unfold alias_step.
  destruct (contains ll (fst la)); simpl; [|exact H].
  destruct (contains ll (snd la)) eqn:E; simpl; [exact H|].
  apply NoDup_app. split; [exact H|]. split; [|apply NoDup_singleton].
  intros x Hx Hs. apply list_elem_of_singleton in Hs as ->.
  apply contains_elem in Hx. congruence.
Qed.

Lemma alias_fold_NoDup als ll :
  NoDup ll -> NoDup (fold_left alias_step als ll).
Proof.
  revert ll. induction als as [|la als IH]; intros ll H; simpl; [exact H|].
  apply IH, alias_step_NoDup, H.
Qed.

(** X12: the list has no duplicate when Babel's list has none and does
    not offer en_US with a catalog.  When Babel lists en_US and the domain
    has an en_US catalog, en_US is in the list twice: the seed is not
    taken into account when the found locales are appended. *)
Theorem language_list_of_duplicates (W : World) (dom : string) :
  let find := fun x =>
    gettext_find W dom (environ W (upper dom ++ "_LOCALEDIR")) x in
  (NoDup (locale_identifiers W) ->
   ~ ("en_US" ∈ locale_identifiers W /\ find "en_US" = true) ->
   NoDup (language_list_of W dom)) /\
  ("en_US" ∈ locale_identifiers W -> find "en_US" = true ->
   ~ NoDup (language_list_of W dom)).
Proof.
  intros find. split.
  - intros Hnd Hen. rewrite language_list_of_fold. apply alias_fold_NoDup.
    unfold found_languages. apply NoDup_cons. split.
    + intros Hin. apply elem_of_filter in Hin. auto.
    + apply filter_NoDup, Hnd.
  - intros Hin Hf Hnd.
    rewrite language_list_of_fold in Hnd.
    destruct (alias_fold_tail aliases (found_languages W dom)) as (tail & E & _).
    rewrite E in Hnd. unfold found_languages in Hnd. simpl in Hnd.
    apply NoDup_cons in Hnd as [Hn _]. apply Hn.
    rewrite elem_of_app. left. apply elem_of_filter. auto.
Qed.

Lemma language_list_of_duplicates_witness :
  NoDup (language_list_of catalog_world "xdrs") /\
  ~ NoDup (language_list_of base_catalog_world "xdrs").
Proof.
  split.
  - apply (language_list_of_duplicates catalog_world "xdrs").
    + simpl. repeat (apply NoDup_cons_2;
        [rewrite ?elem_of_cons, elem_of_nil; intuition discriminate|]).
      apply NoDup_nil_2.
    + intros [_ H]. discriminate H.
  - apply (language_list_of_duplicates base_catalog_world "xdrs").
    + simpl. rewrite !elem_of_cons. auto.
    + reflexivity.
Defined.

Example language_list_of_run :
  language_list_of catalog_world "xdrs" = ["en_US"; "fr"; "zh"; "zh_CN"] /\
  language_list_of base_catalog_world "xdrs" = ["en_US"; "en_US"; "fr"].
Proof. split; reflexivity. Qed.

(** ** The cache and the world *)

Lemma get_available_languages_miss W dom st :
  _AVAILABLE_LANGUAGES st !! dom = None ->
  get_available_languages W dom st =
  (S (length (heap st)),
   mkState (USE_LAZY st)
     (<[dom := length (heap st)]> (_AVAILABLE_LANGUAGES st))
     ((heap st ++ [language_list_of W dom]) ++ [language_list_of W dom])%list).
Proof.
  intros H. unfold get_available_languages. rewrite H.
  unfold copy_copy, new_list, contents. simpl.
  rewrite list_lookup_middle by reflexivity. simpl.
  rewrite length_app. simpl. f_equal. lia.
Qed.

Lemma get_available_languages_hit W dom st c :
  _AVAILABLE_LANGUAGES st !! dom = Some c ->
  get_available_languages W dom st =
  (length (heap st),
   mkState (USE_LAZY st) (_AVAILABLE_LANGUAGES st)
     (heap st ++ [contents st c])%list).
Proof. intros H. unfold get_available_languages. rewrite H. reflexivity. Qed.

(** X13: the list is computed once per domain.  On the first call for a
    domain the returned list holds the list built from the world of that
    moment, and only the entry of that domain is added to the cache.  A
    later call returns that same contents even when the world has changed
    since (other catalogs installed, another Babel list): the cache is
    never refreshed. *)
Theorem get_available_languages_computed_once
    (W W' : World) (dom : string) (st st1 st2 : State) (l1 l2 : nat) :
  _AVAILABLE_LANGUAGES st !! dom = None ->
  get_available_languages W dom st = (l1, st1) ->
  get_available_languages W' dom st1 = (l2, st2) ->
  contents st1 l1 = language_list_of W dom /\
  contents st2 l2 = language_list_of W dom /\
  (forall d, d <> dom ->
     _AVAILABLE_LANGUAGES st2 !! d = _AVAILABLE_LANGUAGES st !! d) /\
  USE_LAZY st2 = USE_LAZY st.
Proof.
  intros Hmiss E1 E2.
  rewrite (get_available_languages_miss W dom st Hmiss) in E1.
  injection E1 as <- <-.
  rewrite (get_available_languages_hit W' dom _ (length (heap st))) in E2
    by (simpl; apply lookup_insert_eq).
  injection E2 as <- <-.
  assert (Hc : forall h' : list (list string),
    ((heap st ++ [language_list_of W dom]) ++ h')%list !! length (heap st)
    = Some (language_list_of W dom)).
  { intros h'. rewrite <- app_assoc. apply list_lookup_middle. reflexivity. }
  unfold contents. simpl. repeat split.
  - rewrite lookup_app_r by (rewrite length_app; simpl; lia).
    rewrite length_app. simpl.
    replace (S (length (heap st)) - (length (heap st) + 1)) with 0 by lia.
    reflexivity.
  - rewrite Hc. simpl.
    rewrite lookup_app_r by (rewrite !length_app; simpl; lia).
    rewrite !length_app. simpl.
    replace (length (heap st) + 1 + 1 - (length (heap st) + 1 + 1)) with 0 by lia.
    reflexivity.
  - intros d Hd. apply lookup_insert_ne. congruence.
Qed.

Lemma get_available_languages_computed_once_witness :
  let r1 := get_available_languages catalog_world "xdrs" initial_state in
  let r2 := get_available_languages base_catalog_world "xdrs" (snd r1) in
  contents (snd r1) (fst r1) = ["en_US"; "fr"; "zh"; "zh_CN"] /\
  contents (snd r2) (fst r2) = ["en_US"; "fr"; "zh"; "zh_CN"].
Proof.
  intros r1 r2.
  destruct (get_available_languages_computed_once catalog_world
              base_catalog_world "xdrs" initial_state (snd r1) (snd r2)
              (fst r1) (fst r2)) as (H1 & H2 & _).
  - reflexivity.
  - apply surjective_pairing.
  - apply surjective_pairing.
  - split; [exact H1 | exact H2].
Defined.

(** ** Lazy and eager [_] *)

(** X14: once [enable_lazy] has been called, [_(msg)] is a Message of the
    domain xdrs that [translate] renders in the locale asked for at that
    moment.  Without lazy mode [_(msg)] is a plain string, looked up once
    in the catalog chosen when the module was loaded, and [translate]
    returns it as it is for every locale. *)
Theorem gettext_lazy_defers_translation
    (W : World) (st : State) (msg : string) (loc : option string) :
  translate W (gettext_ W (enable_lazy st) msg) loc
    = Ok (PStr (Message_translate_msgid W msg "xdrs" loc)) /\
  (USE_LAZY st = false ->
   translate W (gettext_ W st msg) loc = Ok (gettext_ W st msg) /\
   is_Message (gettext_ W st msg) = false).
Proof.
  split.
  - reflexivity.
  - intros H. unfold gettext_. rewrite H. split; reflexivity.
Qed.

Lemma gettext_lazy_defers_translation_witness :
  translate reference_world (gettext_ reference_world initial_state "Hi") (Some "de")
    = Ok (gettext_ reference_world initial_state "Hi") /\
  is_Message (gettext_ reference_world initial_state "Hi") = false.
Proof.
  destruct (gettext_lazy_defers_translation reference_world initial_state "Hi"
              (Some "de")) as [_ H].
  apply H. reflexivity.
Defined.

(** ** Text and translation agree when nothing is translated *)

(** X15: take a message id that no catalog of the domain translates,
    build the Message and format it with [%].  If the captured parameters
    hold nothing translatable, [translate] gives, for every locale, what
    the parent's [%] gives for the message id and the parameters; and that
    is the text of the formatted Message whenever it is not empty. *)
Theorem untranslated_translate_agrees_with_text
    (W : World) (msgid dom : string) (other : pyval) (m' : Message)
    (loc : option string) :
  (forall dir langs, catalog W dom dir langs msgid = None) ->
  Message_mod W (Message_new W msgid None PNone dom) other = Ok m' ->
  params m' <> PNone ->
  translate_args W (params m') loc = Ok (params m') ->
  exists s,
    unicode_mod W msgid (params m') = Ok s /\
    Message_translate W m' loc = Ok s /\
    (s <> "" -> text m' = s).
Proof.
  intros Hcat Hmod Hp Hargs.
  apply Message_mod_Ok in Hmod as (p & s & _ & Hs & ->). simpl in *.
  rewrite (Message_translate_msgid_missing W msgid dom None Hcat) in Hs.
  exists s. split; [exact Hs|]. split.
  - unfold Message_translate, Message_translate_with. simpl.
    rewrite (Message_translate_msgid_missing W msgid dom loc Hcat).
    unfold translate_args in Hargs.
    destruct p; try congruence; rewrite Hargs; simpl; exact Hs.
  - intros Hne. unfold truthy.
    destruct (String.eqb_spec s ""); [congruence | reflexivity].
Qed.

Lemma untranslated_translate_agrees_with_text_witness :
  let m' := mkMessage "Hello Bob" "Hello %s" "xdrs" (PStr "Bob") in
  exists s,
    py_format "Hello %s" (params m') = Ok s /\
    Message_translate reference_world m' (Some "de") = Ok s /\
    (s <> "" -> text m' = s).
Proof.
  intros m'.
  apply (untranslated_translate_agrees_with_text reference_world "Hello %s"
           "xdrs" (PStr "Bob") m' (Some "de")).
  - intros dir langs. reflexivity.
  - reflexivity.
  - discriminate.
  - reflexivity.
Defined.

(** ** Trimming a mapping to the referenced keys *)






(** *** The first scan on a plain format string *)








(** *** The second scan on a plain format string *)






(** *** The conversions of a plain format string *)






(** *** The claim on plain format strings *)




Example conversion_with_width_is_not_scanned :
  referenced_keys "%(name)s has %(count)5d" = ["name"; "count"] /\
  findall_keys "%(name)s has %(count)5d" = ["name"] /\
  Message_sanitize_mod_params reference_world
    (Message_new reference_world "%(name)s has %(count)5d" None PNone "xdrs")
    (PDict [("name", PStr "Bob"); ("count", PInt 3)])
  = Ok (PDict [("name", PStr "Bob")]) /\
  Message_mod reference_world
    (Message_new reference_world "%(name)s has %(count)5d" None PNone "xdrs")
    (PDict [("name", PStr "Bob"); ("count", PInt 3)])
  = Raise (KeyError "count").
Proof. repeat split; reflexivity. Qed.

Example positional_with_width_is_not_scanned :
  has_positional "%5d items" = true /\
  has_conversion "%5d items" = false /\
  Message_sanitize_mod_params reference_world
    (Message_new reference_world "%5d items" None PNone "xdrs")
    (PDict [("a", PInt 1)])
  = Ok (PDict []).
Proof. repeat split; reflexivity. Qed.

(** The scan after an escaped percent sign: the source comments that the
    pattern skips the escape; the key behind it is found all the same. *)
Example key_after_escaped_percent_is_scanned :
  referenced_keys "%(a)s 100%%(c)d" = ["a"] /\
  findall_keys "%(a)s 100%%(c)d" = ["a"; "c"] /\
  Message_mod reference_world
    (Message_new reference_world "%(a)s 100%%(c)d" None PNone "xdrs")
    (PDict [("a", PInt 1)])
  = Raise (KeyError "c").
Proof. repeat split; reflexivity. Qed.
